(** * glogs_wordcloud: text normalisation and frequency analysis

    A shallow embedding of [glogs_wordcloud.py] (the payload extraction loop
    of [get_logs], [clean_text], [analyze_word_frequency] and
    [analyze_phrase_frequency]) together with the properties its
    specification states about them.

    Conventions of the embedding:
    - a Python [str] is the list of its code points; code points are the
      256 values of [ascii], read as U+0000..U+00FF, and the character
      classes below are the ones Python's [re] and [str] methods use on
      that range;
    - the normalizer is given a second time over any alphabet, with
      [lower] any function on strings ([Text]), and over U+0000..U+00FF
      with U+0130 and U+0307 added ([Wide]), where [lower] is not a
      character-by-character map;
    - a Python [int] is a [Z];
    - a [Counter] is a finite map from [str] to [Z];
    - a call either returns a value or raises: [outcome]. *)

From Stdlib Require Import ZArith NArith Ascii String Lia.
From stdpp Require Import gmap strings list fin_maps.

Local Open Scope Z_scope.
Set Warnings "-register-all".

(** ** Python values and the outcome of a call *)

Module Py.

(** [str]: a sequence of code points. *)
Abbreviation str := (list ascii).

(** A string literal, as the list of its characters. *)
Definition lit (s : string) : str := list_ascii_of_string s.

(** The exceptions of the model; all of them derive from [Exception]. *)
Inductive exn : Type :=
| TypeError
| OtherException (cls : string).

Inductive outcome (A : Type) : Type :=
| Return (a : A)
| Raise (e : exn).
Arguments Return {A} a.
Arguments Raise {A} e.

#[global] Instance outcome_ret : MRet outcome := fun A a => Return a.
#[global] Instance outcome_bind : MBind outcome := fun A B k c =>
  match c with
  | Return a => k a
  | Raise e => Raise e
  end.

(** [try: body / except Exception as e: handler e]. *)
Definition try_except {A} (body : outcome A) (handler : exn -> outcome A) : outcome A :=
  match body with
  | Return a => Return a
  | Raise e => handler e
  end.

(** [for x in xs: st = body x st], an exception of the body ends the loop. *)
Fixpoint for_in {A S : Type} (xs : list A) (body : A -> S -> outcome S) (st : S) : outcome S :=
  match xs with
  | [] => mret st
  | x :: rest => st' ← body x st; for_in rest body st'
  end.

(** The values that reach the program: a [str], a [dict] with [str] keys,
    or an object of any other type (known only by a handle). *)
Inductive value : Type :=
| VStr (s : str)
| VDict (d : gmap str value)
| VOther (o : N).

(** *** Character classes on U+0000..U+00FF *)

Definition code (c : ascii) : N := N_of_ascii c.

Definition in_range (lo hi : N) (c : ascii) : bool :=
  ((lo <=? code c) && (code c <=? hi))%N.

(** [\d]: the decimal digits. *)
Definition is_digit (c : ascii) : bool := in_range 48 57 c.

(** [\s], which is also the separator set of [str.split()]. *)
Definition is_space (c : ascii) : bool :=
  in_range 9 13 c || in_range 28 32 c || (code c =? 133)%N || (code c =? 160)%N.

(** [\w]: alphanumeric characters and the underscore. *)
Definition is_word (c : ascii) : bool :=
  in_range 48 57 c || in_range 65 90 c || (code c =? 95)%N || in_range 97 122 c
  || (code c =? 170)%N || in_range 178 179 c || (code c =? 181)%N
  || in_range 185 186 c || in_range 188 190 c || in_range 192 214 c
  || in_range 216 246 c || in_range 248 255 c.

(** The lowercase mapping of one character. *)
Definition char_lower (c : ascii) : ascii :=
  if in_range 65 90 c || in_range 192 214 c || in_range 216 222 c
  then ascii_of_N (code c + 32)
  else c.

(** [s.lower()]. *)
Definition lower (s : str) : str := map char_lower s.

(** *** [re.sub] for the two patterns of the program *)

Inductive pattern : Type :=
| NotWordNotSpace   (* [^\w\s] *)
| Digits.           (* \d+     *)

(** One-character class: every matching character is replaced by [repl]. *)
Fixpoint sub_each (cls : ascii -> bool) (repl : str) (s : str) : str :=
  match s with
  | [] => []
  | c :: s' => if cls c then repl ++ sub_each cls repl s'
               else c :: sub_each cls repl s'
  end.

(** Class followed by [+]: every maximal run of matching characters is
    replaced by one [repl]; [in_run] says that the previous character
    belonged to the run being consumed. *)
Fixpoint sub_runs (cls : ascii -> bool) (repl : str) (in_run : bool) (s : str) : str :=
  match s with
  | [] => []
  | c :: s' =>
      if cls c
      then (if in_run then sub_runs cls repl true s'
            else repl ++ sub_runs cls repl true s')
      else c :: sub_runs cls repl false s'
  end.

(** [re.sub(pattern, repl, string)]: a [string] that is not a [str] is a
    [TypeError]. *)
Definition re_sub (p : pattern) (repl : str) (string : value) : outcome str :=
  match string with
  | VStr s =>
      match p with
      | NotWordNotSpace => Return (sub_each (fun c => negb (is_word c || is_space c)) repl s)
      | Digits => Return (sub_runs is_digit repl false s)
      end
  | _ => Raise TypeError
  end.

(** *** [str.split()] and [sep.join] *)

(** [cur] holds the characters of the word being read, last one first. *)
Fixpoint split_go (cur : str) (s : str) : list str :=
  match s with
  | [] => match cur with [] => [] | _ => [rev cur] end
  | c :: s' =>
      if is_space c
      then match cur with
           | [] => split_go [] s'
           | _ => rev cur :: split_go [] s'
           end
      else split_go (c :: cur) s'
  end.

Definition split (s : str) : list str := split_go [] s.

Fixpoint join (sep : str) (parts : list str) : str :=
  match parts with
  | [] => []
  | [p] => p
  | p :: rest => p ++ sep ++ join sep rest
  end.

(** *** [range], slices and [zip] *)

(** [range(n)]: empty when [n <= 0]. *)
Definition range (n : Z) : list Z := map Z.of_nat (seq 0 (Z.to_nat n)).

(** [l[i:]]; a negative [i] counts from the end. *)
Definition slice_from {A} (l : list A) (i : Z) : list A :=
  if i <? 0 then drop (Z.to_nat (Z.of_nat (length l) + i)) l
  else drop (Z.to_nat i) l.

(** One round of [zip]: the next item of every iterable, unless one of them
    is exhausted. *)
Fixpoint next_all {A} (ls : list (list A)) : option (list A * list (list A)) :=
  match ls with
  | [] => Some ([], [])
  | l :: ls' =>
      match l with
      | [] => None
      | x :: l' =>
          match next_all ls' with
          | Some (t, rest) => Some (x :: t, l' :: rest)
          | None => None
          end
      end
  end.

Fixpoint zip_go {A} (fuel : nat) (ls : list (list A)) : list (list A) :=
  match fuel with
  | O => []
  | S fuel' =>
      match next_all ls with
      | Some (t, rest) => t :: zip_go fuel' rest
      | None => []
      end
  end.

(** [zip] applied to the unpacked list [ls]: no iterable, no tuple;
    otherwise tuples until the first iterable that runs out (the length of
    the first one bounds the number of rounds). *)
Definition zip_star {A} (ls : list (list A)) : list (list A) :=
  match ls with
  | [] => []
  | l :: _ => zip_go (length l) ls
  end.

(** *** [Counter] *)

(** [counts.update(elems)] for an iterable of keys: one increment per
    element. *)
Definition Counter_update (counts : gmap str Z) (elems : list str) : gmap str Z :=
  foldl (fun c elem => <[elem := default 0 (c !! elem) + 1]> c) counts elems.

End Py.

Import Py.

(** ** The program *)

Section Program.

(** [wordcloud.STOPWORDS], the default stop-word list of the [wordcloud]
    package. *)
Variable STOPWORDS : gset str.

(** The builtin [str(x)], which runs the [__str__] or [__repr__] of [x] and
    so may raise. *)
Variable py_str : value -> outcome str.

(** [get_logs], from the iteration over [entries] on; an entry is given by
    its [payload]. *)
Definition get_logs (entries : list value) : outcome (list value) :=
  for_in entries (fun entry log_messages =>
    try_except
      (match entry with
       | VStr _ => mret (log_messages ++ [entry])
       | VDict d =>
           match d !! lit "message" with
           | Some message => mret (log_messages ++ [message])
           | None => s ← py_str entry; mret (log_messages ++ [VStr s])
           end
       | VOther _ => s ← py_str entry; mret (log_messages ++ [VStr s])
       end)
      (fun e => mret log_messages))
    [].

Definition clean_text (text : value) : outcome str :=
  text ← re_sub NotWordNotSpace [] text;
  let text := lower text in
  text ← re_sub Digits [] (VStr text);
  mret text.

(** [[word for word in words if word not in stop_words and len(word) > 2]] *)
Definition keep_words (stop_words : gset str) (words : list str) : list str :=
  filter (fun word => (word ∉ stop_words) ∧ (2 < length word)%nat) words.

Definition analyze_word_frequency
    (log_messages : list value) (stop_words : option (gset str)) : outcome (gmap str Z) :=
  let stop_words := match stop_words with None => STOPWORDS | Some s => s end in
  for_in log_messages (fun message word_counts =>
    cleaned_message ← clean_text message;
    let words := split cleaned_message in
    let words := keep_words stop_words words in
    mret (Counter_update word_counts words))
    ∅.

(** The phrases of one message: [zip] over the slices [words[i:]] for [i]
    in [range(n)], each tuple joined with a space. *)
Definition phrases_of (words : list str) (n : Z) : list str :=
  let phrases := zip_star (map (fun i => slice_from words i) (range n)) in
  map (fun phrase => join (lit " ") phrase) phrases.

Definition analyze_phrase_frequency
    (log_messages : list value) (n : Z) (stop_words : option (gset str)) : outcome (gmap str Z) :=
  let stop_words := match stop_words with None => STOPWORDS | Some s => s end in
  for_in log_messages (fun message phrase_counts =>
    cleaned_message ← clean_text message;
    let words := split cleaned_message in
    let words := keep_words stop_words words in
    let phrases := phrases_of words n in
    mret (Counter_update phrase_counts phrases))
    ∅.

End Program.

(** ** Definitions that follow the specification *)

(** The Text Normalizer in the specification's words: drop what is neither
    a word character nor whitespace, lowercase, drop the digits, split. *)
Definition normalize_spec (s : str) : list str :=
  split
    (filter (fun c => is_digit c = false)
       (map char_lower
          (filter (fun c => is_word c || is_space c = true) s))).

(** The filter of the Frequency Analyzer: length above 2, not a stop word. *)
Definition tokens (stop_words : gset str) (message : str) : list str :=
  filter (fun w => (2 < length w)%nat ∧ (w ∉ stop_words)) (normalize_spec message).

(** The contiguous windows of [n] elements of [W], in order. *)
Definition windows {A} (n : nat) (W : list A) : list (list A) :=
  map (fun k => take n (drop k W)) (seq 0 (length W + 1 - n)).

Definition phrases_spec (stop_words : gset str) (n : Z) (message : str) : list str :=
  map (join (lit " ")) (windows (Z.to_nat n) (tokens stop_words message)).

(** Number of occurrences of [k] in [xs]. *)
Fixpoint occurrences (k : str) (xs : list str) : nat :=
  match xs with
  | [] => 0
  | x :: xs' => if decide (x = k) then S (occurrences k xs') else occurrences k xs'
  end.

(** [t] counts the elements of [xs]: a key for every element that occurs,
    with its number of occurrences, and no other key. *)
Definition counts_of (t : gmap str Z) (xs : list str) : Prop :=
  forall k, t !! k = if decide (k ∈ xs) then Some (Z.of_nat (occurrences k xs)) else None.

(** Key-by-key sum of two tables. *)
Definition counter_sum (t1 t2 : gmap str Z) : gmap str Z :=
  union_with (fun a b => Some (a + b)) t1 t2.

(** The normalizer as the program runs it: [clean_text], then [split]. *)
Definition normalize (text : value) : outcome (list str) :=
  cleaned ← clean_text text; mret (split cleaned).

(** The Payload Extractor in the specification's words, for one entry. *)
Definition extract_spec (py_str : value -> outcome str) (payload : value) : outcome value :=
  match payload with
  | VStr s => Return (VStr s)
  | VDict d =>
      match d !! lit "message" with
      | Some field => Return field
      | None => s ← py_str payload; mret (VStr s)
      end
  | VOther _ => s ← py_str payload; mret (VStr s)
  end.

(** A text that the three steps leave alone. *)
Definition already_normalized (s : str) : Prop :=
  lower s = s
  ∧ Forall (fun c => is_word c || is_space c = true) s
  ∧ Forall (fun c => is_digit c = false) s.

(** A word of a text: not empty, no whitespace in it. *)
Definition is_word_of_text (w : str) : Prop :=
  w <> [] ∧ Forall (fun c => is_space c = false) w.

(** The stop-word set in force: the argument, or the default list. *)
Definition stop_set (STOPWORDS : gset str) (stop_words : option (gset str)) : gset str :=
  match stop_words with None => STOPWORDS | Some s => s end.

(** What one entry adds to [log_messages]. *)
Definition kept (r : outcome value) : list value :=
  match r with
  | Return m => [m]
  | Raise _ => []
  end.

(** A conversion used for the concrete batches below: the object with
    handle 0 cannot be converted. *)
Definition sample_str (v : value) : outcome str :=
  match v with
  | VStr s => Return s
  | VDict _ => Return (lit "{'status': 'ok'}")
  | VOther 0%N => Raise (OtherException "ValueError")
  | VOther _ => Return (lit "None")
  end.

Definition sample_entries : list value :=
  [ VStr (lit "disk full");
    VOther 0;
    VDict {[ lit "message" := VStr (lit "error disk") ]};
    VDict {[ lit "status" := VStr (lit "ok") ]};
    VOther 7 ].

(** ** The caller: [main] *)

(** What [main] does that can be seen from outside, in order: its own two
    messages and its calls of [generate_wordcloud] (the messages that the
    functions it calls print are not recorded). *)
Inductive event : Type :=
| Print_no_entries                      (* "No log entries found." *)
| Print_error (e : exn)                 (* "An error occurred: ..." *)
| Call_generate_wordcloud (counts : gmap str Z) (output_file : string).

(** A computation that records events and returns or raises. *)
Definition io (A : Type) : Type := (list event * outcome A)%type.

Definition io_ret {A} (a : A) : io A := ([], Return a).

Definition io_bind {A B} (c : io A) (k : A -> io B) : io B :=
  match c with
  | (evs, Return a) => let '(evs', r) := k a in (evs ++ evs', r)
  | (evs, Raise e) => (evs, Raise e)
  end.

(** A call that records nothing. *)
Definition call {A} (c : outcome A) : io A := ([], c).

Definition emit (ev : event) : io unit := ([ev], Return tt).

(** [try: body / except Exception as e: handler e], events kept. *)
Definition io_try {A} (body : io A) (handler : exn -> io A) : io A :=
  match body with
  | (evs, Return a) => (evs, Return a)
  | (evs, Raise e) => let '(evs', r) := handler e in (evs ++ evs', r)
  end.

Section Main.

Variable STOPWORDS : gset str.
Variable py_str : value -> outcome str.

(** [setup_environment(project_id, credentials_path)]: it raises when the
    connection test does. *)
Variable setup_environment : string -> option string -> outcome unit.

(** The retrieval at the head of [get_logs]: the entries that
    [client.list_entries] gives for the log, or the exception it raises. *)
Variable list_entries : string -> string -> Z -> option string -> outcome (list value).

(** [generate_wordcloud(counts, output_file)]: the rendering. *)
Variable generate_wordcloud : gmap str Z -> string -> outcome unit.

Definition main (project_id log_name : string) (num_entries : Z) (output_file : string)
    (credentials_path filter_string : option string)
    (analyze_phrases : bool) (ngram_size : Z) : io unit :=
  io_try
    (io_bind (call (setup_environment project_id credentials_path)) (fun _ =>
     io_bind (call (entries ← list_entries project_id log_name num_entries filter_string;
                    get_logs py_str entries)) (fun log_messages =>
     match log_messages with
     | [] => emit Print_no_entries
     | _ :: _ =>
         if analyze_phrases
         then
           io_bind (call (analyze_phrase_frequency STOPWORDS log_messages ngram_size None))
             (fun phrase_counts =>
           io_bind (emit (Call_generate_wordcloud phrase_counts output_file)) (fun _ =>
           call (generate_wordcloud phrase_counts output_file)))
         else
           io_bind (call (analyze_word_frequency STOPWORDS log_messages None))
             (fun word_counts =>
           io_bind (emit (Call_generate_wordcloud word_counts output_file)) (fun _ =>
           call (generate_wordcloud word_counts output_file)))
     end)))
    (fun e => emit (Print_error e)).

End Main.

(** ** Further notions used by the properties *)

(** A value that is a [str]. *)
Definition is_str (v : value) : Prop :=
  match v with VStr _ => True | _ => False end.

(** An entry whose payload is a mapping with a "message" field that is not
    a string. *)
Definition has_non_string_message (entry : value) : Prop :=
  match entry with
  | VDict d =>
      match d !! lit "message" with
      | Some (VStr _) => False
      | Some _ => True
      | None => False
      end
  | _ => False
  end.

(** A character that the first step of [clean_text] deletes: neither word
    character nor whitespace. *)
Definition is_punctuation (c : ascii) : Prop := is_word c || is_space c = false.

(** What every key of a word table is: longer than 2, without whitespace
    and without digit. *)
Definition key_shaped (w : str) : Prop :=
  (2 < length w)%nat ∧ Forall (fun c => is_space c = false ∧ is_digit c = false) w.

(** The sum of the counts of a table. *)
Definition total (t : gmap str Z) : Z := map_fold (fun _ v acc => v + acc) 0 t.

(** The events that are calls of [generate_wordcloud]. *)
Definition render_calls (evs : list event) : list (gmap str Z * string) :=
  flat_map (fun ev => match ev with
                      | Call_generate_wordcloud counts output_file => [(counts, output_file)]
                      | _ => []
                      end) evs.

(** The analysis that [main] runs on the extracted messages: the mode it
    was asked for, with the default stop words. *)
Definition main_analysis (STOPWORDS : gset str) (analyze_phrases : bool) (ngram_size : Z)
    (log_messages : list value) : outcome (gmap str Z) :=
  if analyze_phrases
  then analyze_phrase_frequency STOPWORDS log_messages ngram_size None
  else analyze_word_frequency STOPWORDS log_messages None.

(** Collaborators that always succeed, for the concrete runs below. *)
Definition sample_setup (project_id : string) (credentials_path : option string) : outcome unit :=
  Return tt.

Definition sample_list_entries (entries : list value)
    (project_id log_name : string) (num_entries : Z) (filter_string : option string) :
    outcome (list value) :=
  Return entries.

Definition sample_render (counts : gmap str Z) (output_file : string) : outcome unit :=
  Return tt.

(** ** The normalizer over any alphabet *)

(** [clean_text] and [split] once more, with the character type, the
    classes [\w], [\s], [\d] and the method [lower] left open: [lower] is
    any function on strings (it need not work character by character). *)
Module Text.

Section Alphabet.

Context {char : Type}.
Variables is_word is_space is_digit : char -> bool.
Variable lower : list char -> list char.

Fixpoint sub_each (cls : char -> bool) (repl : list char) (s : list char) : list char :=
  match s with
  | [] => []
  | c :: s' => if cls c then repl ++ sub_each cls repl s'
               else c :: sub_each cls repl s'
  end.

Fixpoint sub_runs (cls : char -> bool) (repl : list char) (in_run : bool) (s : list char)
    : list char :=
  match s with
  | [] => []
  | c :: s' =>
      if cls c
      then (if in_run then sub_runs cls repl true s'
            else repl ++ sub_runs cls repl true s')
      else c :: sub_runs cls repl false s'
  end.

Fixpoint split_go (cur : list char) (s : list char) : list (list char) :=
  match s with
  | [] => match cur with [] => [] | _ => [rev cur] end
  | c :: s' =>
      if is_space c
      then match cur with
           | [] => split_go [] s'
           | _ => rev cur :: split_go [] s'
           end
      else split_go (c :: cur) s'
  end.

Definition split (s : list char) : list (list char) := split_go [] s.

Definition clean_text (text : list char) : list char :=
  let text := sub_each (fun c => negb (is_word c || is_space c)) [] text in
  let text := lower text in
  let text := sub_runs is_digit [] false text in
  text.

Definition normalize (text : list char) : list (list char) := split (clean_text text).

(** A text that the three steps leave alone. *)
Definition already_normalized (s : list char) : Prop :=
  lower s = s
  ∧ Forall (fun c => is_word c || is_space c = true) s
  ∧ Forall (fun c => is_digit c = false) s.

End Alphabet.

End Text.

(** ** An alphabet beyond U+00FF *)

(** The code points U+0000..U+00FF with two more: U+0130 (capital I with
    dot above, a letter) and U+0307 (combining dot above, a mark: neither
    word character, nor whitespace, nor digit). [lower] maps U+0130 to the
    two code points "i", U+0307. *)
Module Wide.

Inductive codepoint : Type :=
| Latin1 (c : ascii)
| U0130
| U0307.

Definition is_word (c : codepoint) : bool :=
  match c with
  | Latin1 a => Py.is_word a
  | U0130 => true
  | U0307 => false
  end.

Definition is_space (c : codepoint) : bool :=
  match c with
  | Latin1 a => Py.is_space a
  | U0130 | U0307 => false
  end.

Definition is_digit (c : codepoint) : bool :=
  match c with
  | Latin1 a => Py.is_digit a
  | U0130 | U0307 => false
  end.

Definition lower (s : list codepoint) : list codepoint :=
  flat_map (fun c => match c with
                     | Latin1 a => [Latin1 (char_lower a)]
                     | U0130 => [Latin1 "i"%char; U0307]
                     | U0307 => [U0307]
                     end) s.

Definition clean_text : list codepoint -> list codepoint :=
  Text.clean_text is_word is_space is_digit lower.

Definition normalize : list codepoint -> list (list codepoint) :=
  Text.normalize is_word is_space is_digit lower.

End Wide.

(** ** Characters and [re.sub] *)

Ltac by_cases_on_char c :=
  destruct c as [[] [] [] [] [] [] [] []]; vm_compute; reflexivity.

Lemma sub_each_empty cls (s : str) :
  sub_each cls [] s = filter (fun c => cls c = false) s.
Proof.
  induction s as [|c s IH]; simpl; [reflexivity|].
  destruct (cls c) eqn:E; simpl.
  - rewrite filter_cons_False by congruence. exact IH.
  - rewrite filter_cons_True by assumption. by rewrite IH.
Qed.

Lemma sub_runs_empty cls b (s : str) :
  sub_runs cls [] b s = filter (fun c => cls c = false) s.
Proof.
  revert b. induction s as [|c s IH]; intros b; simpl; [reflexivity|].
  destruct (cls c) eqn:E.
  - rewrite filter_cons_False by congruence. destruct b; simpl; apply IH.
  - rewrite filter_cons_True by assumption. by rewrite IH.
Qed.

(** A run is replaced once, whatever its length: with a placeholder [repl]
    a run of digits leaves one placeholder. *)
Lemma sub_runs_run cls repl run rest :
  run <> [] -> Forall (fun c => cls c = true) run ->
  (match rest with [] => True | c :: _ => cls c = false end) ->
  sub_runs cls repl false (run ++ rest) = repl ++ sub_runs cls repl false rest.
Proof.
  intros Hne Hrun Hrest.
  assert (Hin : forall r, Forall (fun c => cls c = true) r ->
            sub_runs cls repl true (r ++ rest) = sub_runs cls repl false rest).
  { induction r as [|c r IH]; intros Hr; simpl.
    - destruct rest as [|c rest]; simpl; [reflexivity|]. by rewrite Hrest.
    - inversion Hr as [|? ? Hc Hr']; subst. rewrite Hc. by apply IH. }
  destruct run as [|c run]; [done|]. inversion Hrun as [|? ? Hc Hr]; subst.
  simpl. rewrite Hc. f_equal. by apply Hin.
Qed.

Lemma keep_filter_eq (s : str) :
  filter (fun c => negb (is_word c || is_space c) = false) s
  = filter (fun c => is_word c || is_space c = true) s.
Proof.
  apply list_filter_iff. intros c. destruct (is_word c || is_space c); simpl; split; congruence.
Qed.

(** [clean_text] on a [str]: the three steps, as filters and a map. *)
Lemma clean_text_str (s : str) :
  clean_text (VStr s) =
  Return (filter (fun c => is_digit c = false)
            (map char_lower (filter (fun c => is_word c || is_space c = true) s))).
Proof.
  unfold clean_text, re_sub, lower; simpl.
  unfold mret, outcome_ret. f_equal.
  by rewrite sub_runs_empty, sub_each_empty, keep_filter_eq.
Qed.

Lemma clean_text_not_str v :
  (forall s, v <> VStr s) -> clean_text v = Raise TypeError.
Proof. intros H. destruct v; [by destruct (H s)|reflexivity..]. Qed.

Lemma is_space_lower c : is_space (char_lower c) = is_space c.
Proof. by_cases_on_char c. Qed.

Lemma filter_all {A} (P : A -> Prop) `{forall x, Decision (P x)} (l : list A) :
  Forall P l -> filter P l = l.
Proof.
  induction 1 as [|x l Hx Hl IH]; [reflexivity|].
  rewrite filter_cons_True by assumption. by rewrite IH.
Qed.

Lemma clean_text_fixed (s : str) :
  already_normalized s -> clean_text (VStr s) = Return s.
Proof.
  intros (Hlow & Hkeep & Hdig). rewrite clean_text_str.
  rewrite (filter_all _ s Hkeep). fold (lower s). rewrite Hlow.
  by rewrite (filter_all _ s Hdig).
Qed.

(** ** [split] and [join] *)

Lemma split_go_app (cur w rest : str) :
  Forall (fun c => is_space c = false) w ->
  split_go cur (w ++ rest) = split_go (rev w ++ cur) rest.
Proof.
  revert cur. induction w as [|c w IH]; intros cur Hw; simpl; [reflexivity|].
  inversion Hw as [|? ? Hc Hw']; subst. rewrite Hc, IH by assumption.
  by rewrite <- app_assoc.
Qed.

Lemma split_go_words (cur s : str) :
  Forall (fun c => is_space c = false) cur ->
  Forall is_word_of_text (split_go cur s).
Proof.
  revert cur. induction s as [|c s IH]; intros cur Hcur; simpl.
  - destruct cur as [|c0 cur]; constructor; [|constructor].
    split; [|by apply Forall_rev]. intros E. apply (f_equal length) in E.
    rewrite length_rev in E. discriminate.
  - destruct (is_space c) eqn:Ec.
    + destruct cur as [|c0 cur]; [by apply IH|]. constructor; [|by apply IH].
      split; [|by apply Forall_rev]. intros E. apply (f_equal length) in E.
      rewrite length_rev in E. discriminate.
    + apply IH. by constructor.
Qed.

(** Every word of [split] is non-empty and free of whitespace. *)
Lemma split_words (s : str) : Forall is_word_of_text (split s).
Proof. apply split_go_words. constructor. Qed.

Lemma split_go_concat (cur s : str) :
  concat (split_go cur s) = rev cur ++ filter (fun c => is_space c = false) s.
Proof.
  revert cur. induction s as [|c s IH]; intros cur; simpl.
  - destruct cur; simpl; [reflexivity|]. by rewrite !app_nil_r.
  - destruct (is_space c) eqn:Ec.
    + rewrite filter_cons_False by congruence.
      destruct cur as [|c0 cur]; [apply IH|]. simpl. by rewrite IH.
    + rewrite filter_cons_True by assumption. rewrite IH. simpl.
      by rewrite <- app_assoc.
Qed.

(** The words of [split], put end to end, are the text without its
    whitespace: nothing else is dropped and the order is kept. *)
Lemma split_concat (s : str) :
  concat (split s) = filter (fun c => is_space c = false) s.
Proof. apply split_go_concat. Qed.

Lemma join_cons (sep w : str) (ws : list str) :
  join sep (w :: ws) = w ++ concat (map (fun x => sep ++ x) ws).
Proof.
  revert w. induction ws as [|w' ws IH]; intros w.
  - simpl. by rewrite app_nil_r.
  - change (join sep (w :: w' :: ws)) with (w ++ sep ++ join sep (w' :: ws)).
    rewrite IH. simpl. by rewrite <- app_assoc.
Qed.

Lemma split_go_flush (cur : str) c (s : str) :
  cur <> [] -> is_space c = true ->
  split_go cur [] = [rev cur] ∧ split_go cur (c :: s) = rev cur :: split_go [] s.
Proof. intros Hne Hc. simpl. rewrite Hc. by destruct cur. Qed.

Lemma split_go_join (ws : list str) (cur : str) :
  Forall is_word_of_text ws -> cur <> [] ->
  split_go cur (concat (map (fun x => lit " " ++ x) ws)) = rev cur :: ws.
Proof.
  revert cur. induction ws as [|w ws IH]; intros cur Hws Hcur.
  - simpl. by destruct cur.
  - inversion Hws as [|? ? [Hne Hsp] Hws']; subst.
    change (concat (map (fun x => lit " " ++ x) (w :: ws)))
      with (" "%char :: (w ++ concat (map (fun x => lit " " ++ x) ws))).
    destruct (split_go_flush cur " "%char
                (w ++ concat (map (fun x => lit " " ++ x) ws)) Hcur eq_refl) as [_ ->].
    f_equal. rewrite split_go_app, app_nil_r by assumption.
    rewrite IH; [by rewrite rev_involutive|assumption|].
    intros E. apply Hne. apply (f_equal (@rev ascii)) in E.
    by rewrite rev_involutive in E.
Qed.

(** Words joined with single spaces split back into the same words. *)
Lemma split_join (ws : list str) :
  Forall is_word_of_text ws -> split (join (lit " ") ws) = ws.
Proof.
  destruct ws as [|w ws]; [reflexivity|]. intros Hws.
  inversion Hws as [|? ? [Hne Hsp] Hws']; subst.
  unfold split. rewrite join_cons, split_go_app, app_nil_r by assumption.
  rewrite split_go_join; [by rewrite rev_involutive|assumption|].
  intros E. apply Hne. apply (f_equal (@rev ascii)) in E.
  by rewrite rev_involutive in E.
Qed.

Lemma elem_of_concat {A} (x : A) (ls : list (list A)) :
  x ∈ concat ls <-> exists l, l ∈ ls ∧ x ∈ l.
Proof.
  setoid_rewrite list_elem_of_In. apply in_concat.
Qed.

Lemma elem_of_flat_map {A B} (f : A -> list B) (y : B) (xs : list A) :
  y ∈ flat_map f xs <-> exists x, x ∈ xs ∧ y ∈ f x.
Proof.
  setoid_rewrite list_elem_of_In. apply in_flat_map.
Qed.

Lemma split_chars (s w : str) c : w ∈ split s -> c ∈ w -> c ∈ s.
Proof.
  intros Hw Hc.
  assert (H : c ∈ concat (split s)) by (apply elem_of_concat; eauto).
  rewrite split_concat in H. by apply list_elem_of_filter in H as [_ H].
Qed.

(** ** Loops and counters *)

Lemma for_in_total {A S} (f : S -> A -> S) (body : A -> S -> outcome S) (xs : list A) (st : S) :
  (forall x st, x ∈ xs -> body x st = Return (f st x)) ->
  for_in xs body st = Return (foldl f st xs).
Proof.
  revert st. induction xs as [|x xs IH]; intros st Hb; simpl; [reflexivity|].
  rewrite Hb by constructor. simpl. apply IH. intros. apply Hb. by constructor.
Qed.

Lemma for_in_ext {A S} (body1 body2 : A -> S -> outcome S) (xs : list A) (st : S) :
  (forall x st, body1 x st = body2 x st) ->
  for_in xs body1 st = for_in xs body2 st.
Proof.
  intros H. revert st. induction xs as [|x xs IH]; intros st; simpl; [reflexivity|].
  rewrite H. destruct (body2 x st); simpl; [apply IH|reflexivity].
Qed.

Lemma Counter_update_app (c : gmap str Z) (xs ys : list str) :
  Counter_update c (xs ++ ys) = Counter_update (Counter_update c xs) ys.
Proof. apply foldl_app. Qed.

Lemma Counter_update_flat {A} (f : A -> list str) (c : gmap str Z) (xs : list A) :
  foldl (fun t x => Counter_update t (f x)) c xs = Counter_update c (flat_map f xs).
Proof.
  revert c. induction xs as [|x xs IH]; intros c; simpl; [reflexivity|].
  by rewrite IH, Counter_update_app.
Qed.

Lemma occurrences_cons_eq (k : str) (xs : list str) :
  occurrences k (k :: xs) = S (occurrences k xs).
Proof. simpl. by rewrite decide_True. Qed.

Lemma occurrences_cons_ne (k x : str) (xs : list str) :
  x <> k -> occurrences k (x :: xs) = occurrences k xs.
Proof. intros. simpl. by rewrite decide_False. Qed.

Lemma occurrences_not_in (k : str) (xs : list str) : k ∉ xs -> occurrences k xs = 0%nat.
Proof.
  induction xs as [|x xs IH]; simpl; [reflexivity|].
  rewrite not_elem_of_cons. intros [Hne Hni].
  rewrite decide_False by congruence. by apply IH.
Qed.

Lemma occurrences_in (k : str) (xs : list str) : k ∈ xs -> (0 < occurrences k xs)%nat.
Proof.
  induction xs as [|x xs IH]; [by intros H%elem_of_nil|]. simpl.
  destruct (decide (x = k)); [lia|].
  rewrite elem_of_cons. intros [->|H]; [done|by apply IH].
Qed.

Lemma occurrences_app (k : str) (xs ys : list str) :
  occurrences k (xs ++ ys) = (occurrences k xs + occurrences k ys)%nat.
Proof.
  induction xs as [|x xs IH]; simpl; [reflexivity|].
  destruct (decide (x = k)); simpl; by rewrite IH.
Qed.

Lemma occurrences_perm (k : str) (xs ys : list str) :
  xs ≡ₚ ys -> occurrences k xs = occurrences k ys.
Proof.
  induction 1 as [|x xs ys _ IH|x y xs|xs ys zs _ IH1 _ IH2]; simpl.
  - reflexivity.
  - by rewrite IH.
  - by destruct (decide (y = k)), (decide (x = k)).
  - congruence.
Qed.

(** What [update] does to every key: the count of a key that occurs is its
    former count (0 if it was absent) plus its number of occurrences, and
    the other keys are as they were. *)
Lemma Counter_update_lookup (c : gmap str Z) (xs : list str) (k : str) :
  Counter_update c xs !! k =
  if decide (k ∈ xs) then Some (default 0 (c !! k) + Z.of_nat (occurrences k xs))
  else c !! k.
Proof.
  revert c. induction xs as [|x xs IH]; intros c.
  - rewrite (decide_False (P := k ∈ [])) by apply not_elem_of_nil. reflexivity.
  - change (Counter_update c (x :: xs))
      with (Counter_update (<[x := default 0 (c !! x) + 1]> c) xs).
    rewrite IH. destruct (decide (x = k)) as [->|Hne].
    + rewrite (decide_True (P := k ∈ k :: xs)) by constructor.
      rewrite lookup_insert_eq, occurrences_cons_eq.
      destruct (decide (k ∈ xs)) as [Hin|Hni]; simpl.
      * f_equal; lia.
      * rewrite occurrences_not_in by assumption. f_equal; lia.
    + rewrite lookup_insert_ne, occurrences_cons_ne by assumption.
      destruct (decide (k ∈ xs)) as [Hin|Hni].
      * rewrite (decide_True (P := k ∈ x :: xs)) by (by constructor). reflexivity.
      * rewrite (decide_False (P := k ∈ x :: xs)); [reflexivity|].
        rewrite not_elem_of_cons. split; congruence.
Qed.

Lemma Counter_update_counts (xs : list str) : counts_of (Counter_update ∅ xs) xs.
Proof.
  intros k. rewrite Counter_update_lookup, lookup_empty. simpl.
  destruct (decide (k ∈ xs)); [f_equal; lia|reflexivity].
Qed.

Lemma counts_of_unique (t1 t2 : gmap str Z) (xs : list str) :
  counts_of t1 xs -> counts_of t2 xs -> t1 = t2.
Proof. intros H1 H2. apply map_eq. intros k. by rewrite H1, H2. Qed.

(** ** Slices, [zip] and windows *)

Lemma range_slices {A} (W : list A) (n : Z) :
  map (fun i => slice_from W i) (range n) = map (fun i => drop i W) (seq 0 (Z.to_nat n)).
Proof.
  unfold range. rewrite map_map. apply map_ext. intros i. unfold slice_from.
  destruct (Z.ltb_spec (Z.of_nat i) 0); [lia|]. by rewrite Nat2Z.id.
Qed.

Lemma range_nonpositive (n : Z) : n <= 0 -> range n = [].
Proof. intros H. unfold range. by replace (Z.to_nat n) with 0%nat by lia. Qed.

Lemma drop_S_tail {A} (i : nat) (l : list A) : drop (S i) l = drop i (tail l).
Proof. destruct l; simpl; [by rewrite drop_nil|reflexivity]. Qed.

Lemma slices_S {A} (W : list A) (k : nat) :
  map (fun i => drop i W) (seq 0 (S k)) = W :: map (fun i => drop i (tail W)) (seq 0 k).
Proof.
  simpl. f_equal. rewrite <- seq_shift, map_map. apply map_ext. intros i. apply drop_S_tail.
Qed.

Lemma next_all_slices {A} (W : list A) (k : nat) :
  next_all (map (fun i => drop i W) (seq 0 k)) =
  if decide (k <= length W)%nat
  then Some (take k W, map (fun i => drop i (tail W)) (seq 0 k))
  else None.
Proof.
  revert W. induction k as [|k IH]; intros W.
  - rewrite decide_True by lia. reflexivity.
  - rewrite slices_S. destruct W as [|x W].
    + rewrite decide_False by (simpl; lia). reflexivity.
    + cbn [next_all tail]. rewrite IH. cbn [length].
      destruct (decide (k <= length W)%nat).
      * rewrite decide_True by lia. by rewrite slices_S.
      * rewrite decide_False by lia. reflexivity.
Qed.

Lemma windows_short {A} (n : nat) (W : list A) :
  (length W < n)%nat -> windows n W = [].
Proof. intros H. unfold windows. by replace (length W + 1 - n)%nat with 0%nat by lia. Qed.

Lemma windows_cons {A} (n : nat) (x : A) (W : list A) :
  (n <= S (length W))%nat ->
  windows n (x :: W) = take n (x :: W) :: windows n W.
Proof.
  intros H. unfold windows. cbn [length].
  replace (S (length W) + 1 - n)%nat with (S (length W + 1 - n)) by lia.
  cbn [seq map]. f_equal. rewrite <- seq_shift, map_map. reflexivity.
Qed.

Lemma zip_go_slices {A} (W : list A) (k fuel : nat) :
  (1 <= k)%nat -> (length W <= fuel)%nat ->
  zip_go fuel (map (fun i => drop i W) (seq 0 k)) = windows k W.
Proof.
  intros Hk. revert W. induction fuel as [|fuel IH]; intros W Hf.
  - simpl. rewrite windows_short; [reflexivity|lia].
  - cbn [zip_go]. rewrite next_all_slices.
    destruct (decide (k <= length W)%nat) as [Hle|Hgt].
    + destruct W as [|x W]; [simpl in Hle; lia|]. cbn [tail].
      rewrite IH by (simpl in Hf; lia).
      rewrite windows_cons by (simpl in Hle; lia). reflexivity.
    + rewrite windows_short; [reflexivity|lia].
Qed.

(** The tuples that [zip] yields over the [n] slices are the windows of
    [n] consecutive words. *)
Lemma zip_slices_windows {A} (W : list A) (n : Z) :
  1 <= n ->
  zip_star (map (fun i => slice_from W i) (range n)) = windows (Z.to_nat n) W.
Proof.
  intros Hn. rewrite range_slices.
  destruct (Z.to_nat n) as [|k] eqn:E; [lia|].
  rewrite slices_S. unfold zip_star. rewrite <- slices_S.
  apply zip_go_slices; lia.
Qed.

Lemma phrases_of_windows (words : list str) (n : Z) :
  1 <= n -> phrases_of words n = map (join (lit " ")) (windows (Z.to_nat n) words).
Proof. intros Hn. unfold phrases_of. by rewrite zip_slices_windows. Qed.

Lemma phrases_of_nonpositive (words : list str) (n : Z) :
  n <= 0 -> phrases_of words n = [].
Proof. intros Hn. unfold phrases_of. by rewrite range_nonpositive. Qed.

Lemma windows_length {A} (n : nat) (W : list A) :
  length (windows n W) = (length W + 1 - n)%nat.
Proof. unfold windows. by rewrite length_map, length_seq. Qed.

Lemma windows_lookup {A} (n : nat) (W : list A) (k : nat) :
  (k < length W + 1 - n)%nat -> windows n W !! k = Some (take n (drop k W)).
Proof.
  intros Hk. unfold windows. rewrite list_lookup_fmap, lookup_seq_lt by assumption.
  reflexivity.
Qed.

Lemma windows_elem {A} (n : nat) (W win : list A) :
  win ∈ windows n W ->
  exists k, (k + n <= length W)%nat ∧ win = take n (drop k W) ∧ length win = n.
Proof.
  unfold windows. rewrite list_elem_of_fmap. intros (k & -> & Hk).
  apply elem_of_seq in Hk. exists k.
  assert (k + n <= length W)%nat by lia. repeat split; [assumption|].
  rewrite length_take, length_drop. lia.
Qed.

Lemma windows_elem_in {A} (n : nat) (W win : list A) (x : A) :
  win ∈ windows n W -> x ∈ win -> x ∈ W.
Proof.
  intros (k & _ & -> & _)%windows_elem Hx.
  by eapply subseteq_drop, subseteq_take.
Qed.

(** ** The analysis loops on a batch of strings *)

Lemma normalize_str (s : str) : normalize (VStr s) = Return (normalize_spec s).
Proof. unfold normalize. by rewrite clean_text_str. Qed.

Lemma keep_words_tokens (sw : gset str) (m : str) :
  keep_words sw (normalize_spec m) = tokens sw m.
Proof. unfold keep_words, tokens. apply list_filter_iff. intros w. tauto. Qed.

Lemma foldl_VStr {S} (f : S -> str -> S) (g : S -> value -> S) (st : S) (msgs : list str) :
  (forall st m, g st (VStr m) = f st m) ->
  foldl g st (map VStr msgs) = foldl f st msgs.
Proof.
  intros H. revert st. induction msgs as [|m msgs IH]; intros st; simpl; [reflexivity|].
  by rewrite H, IH.
Qed.

Lemma analyze_word_frequency_str (STOPWORDS : gset str) (msgs : list str) (o : option (gset str)) :
  analyze_word_frequency STOPWORDS (map VStr msgs) o
  = Return (Counter_update ∅ (flat_map (tokens (stop_set STOPWORDS o)) msgs)).
Proof.
  unfold analyze_word_frequency. fold (stop_set STOPWORDS o).
  rewrite (for_in_total (fun t v =>
             match v with
             | VStr m => Counter_update t (tokens (stop_set STOPWORDS o) m)
             | _ => t
             end)).
  - f_equal. rewrite <- Counter_update_flat. by apply foldl_VStr.
  - intros v t (m & -> & _)%list_elem_of_fmap.
    rewrite clean_text_str. simpl. fold (normalize_spec m).
    by rewrite keep_words_tokens.
Qed.

Lemma analyze_phrase_frequency_str (STOPWORDS : gset str) (msgs : list str) (n : Z) (o : option (gset str)) :
  analyze_phrase_frequency STOPWORDS (map VStr msgs) n o
  = Return (Counter_update ∅
              (flat_map (fun m => phrases_of (tokens (stop_set STOPWORDS o) m) n) msgs)).
Proof.
  unfold analyze_phrase_frequency. fold (stop_set STOPWORDS o).
  rewrite (for_in_total (fun t v =>
             match v with
             | VStr m => Counter_update t (phrases_of (tokens (stop_set STOPWORDS o) m) n)
             | _ => t
             end)).
  - f_equal.
    rewrite <- (Counter_update_flat
                  (fun m => phrases_of (tokens (stop_set STOPWORDS o) m) n)).
    by apply foldl_VStr.
  - intros v t (m & -> & _)%list_elem_of_fmap.
    rewrite clean_text_str. simpl. fold (normalize_spec m).
    by rewrite keep_words_tokens.
Qed.

Lemma phrases_of_spec (sw : gset str) (n : Z) (m : str) :
  1 <= n -> phrases_of (tokens sw m) n = phrases_spec sw n m.
Proof. apply phrases_of_windows. Qed.

Lemma tokens_elem (sw : gset str) (m w : str) :
  w ∈ tokens sw m <-> w ∈ normalize_spec m ∧ (2 < length w)%nat ∧ w ∉ sw.
Proof. unfold tokens. rewrite list_elem_of_filter. tauto. Qed.

Lemma windows_one {A} (W : list A) : windows 1 W = map (fun x => [x]) W.
Proof.
  induction W as [|x W IH]; [reflexivity|].
  rewrite windows_cons by lia. simpl. by rewrite IH.
Qed.

Lemma phrases_of_one (words : list str) : phrases_of words 1 = words.
Proof.
  rewrite phrases_of_windows by lia. change (Z.to_nat 1) with 1%nat.
  rewrite windows_one, map_map. simpl. apply map_id.
Qed.

(** ** Sums of tables *)

Lemma counts_of_sum (ta tb : gmap str Z) (xs ya yb : list str) :
  xs ≡ₚ ya ++ yb -> counts_of ta ya -> counts_of tb yb ->
  counts_of (counter_sum ta tb) xs.
Proof.
  intros Hp Ha Hb k. unfold counter_sum. rewrite lookup_union_with, Ha, Hb.
  rewrite (occurrences_perm k _ _ Hp), occurrences_app.
  assert (Hin : k ∈ xs <-> k ∈ ya ∨ k ∈ yb) by (rewrite Hp; apply elem_of_app).
  destruct (decide (k ∈ ya)) as [Hya|Hya], (decide (k ∈ yb)) as [Hyb|Hyb]; simpl.
  - rewrite decide_True by tauto. f_equal. lia.
  - rewrite decide_True by tauto. rewrite (occurrences_not_in k yb) by assumption.
    f_equal. lia.
  - rewrite decide_True by tauto. rewrite (occurrences_not_in k ya) by assumption.
    f_equal.
  - rewrite decide_False by tauto. reflexivity.
Qed.

Lemma perm_rotate3 {A} (x y z : A) : [x; y; z] ≡ₚ [z; x] ++ [y].
Proof.
  simpl. etransitivity; [apply perm_skip, perm_swap|]. apply perm_swap.
Qed.

Lemma flat_map_perm {A} (f : A -> list str) (xs a b : list A) :
  xs ≡ₚ a ++ b -> flat_map f xs ≡ₚ flat_map f a ++ flat_map f b.
Proof. intros H. rewrite <- flat_map_app. by apply Permutation_flat_map. Qed.

Lemma Counter_update_sum {A} (f : A -> list str) (xs a b : list A) :
  xs ≡ₚ a ++ b ->
  Counter_update ∅ (flat_map f xs)
  = counter_sum (Counter_update ∅ (flat_map f a)) (Counter_update ∅ (flat_map f b)).
Proof.
  intros H. eapply counts_of_unique; [apply Counter_update_counts|].
  eapply counts_of_sum; [by apply flat_map_perm|apply Counter_update_counts..].
Qed.

Lemma counts_of_positive (t : gmap str Z) (xs : list str) (k : str) (c : Z) :
  counts_of t xs -> t !! k = Some c -> 1 <= c ∧ k ∈ xs.
Proof.
  intros Ht. rewrite Ht. destruct (decide (k ∈ xs)) as [Hin|]; [|discriminate].
  intros [= <-]. split; [|assumption]. apply occurrences_in in Hin. lia.
Qed.

Lemma counts_of_dom (t : gmap str Z) (xs : list str) (k : str) :
  counts_of t xs -> k ∈ dom t <-> k ∈ xs.
Proof.
  intros Ht. rewrite elem_of_dom, Ht.
  destruct (decide (k ∈ xs)); split; try done; by intros [? ?].
Qed.

(** ** The extraction loop *)

Lemma foldl_kept {A B} (f : A -> list B) (acc : list B) (xs : list A) :
  foldl (fun acc x => acc ++ f x) acc xs = acc ++ flat_map f xs.
Proof.
  revert acc. induction xs as [|x xs IH]; intros acc; simpl.
  - by rewrite app_nil_r.
  - by rewrite IH, app_assoc.
Qed.

Lemma get_logs_kept (py_str : value -> outcome str) (entries : list value) :
  get_logs py_str entries
  = Return (flat_map (fun entry => kept (extract_spec py_str entry)) entries).
Proof.
  unfold get_logs.
  rewrite (for_in_total (fun acc entry => acc ++ kept (extract_spec py_str entry))).
  - by rewrite foldl_kept.
  - intros entry acc _. unfold extract_spec. destruct entry as [s|d|o].
    + reflexivity.
    + destruct (d !! lit "message"); [reflexivity|].
      destruct (py_str (VDict d)); simpl; [reflexivity|]. by rewrite app_nil_r.
    + destruct (py_str (VOther o)); simpl; [reflexivity|]. by rewrite app_nil_r.
Qed.

Lemma kept_length (r : outcome value) : (length (kept r) <= 1)%nat.
Proof. destruct r; simpl; lia. Qed.

Lemma flat_map_kept_length (f : value -> outcome value) (entries : list value) :
  (length (flat_map (fun entry => kept (f entry)) entries) <= length entries)%nat.
Proof.
  induction entries as [|entry entries IH]; simpl; [lia|].
  rewrite length_app. pose proof (kept_length (f entry)). lia.
Qed.

Lemma flat_map_kept_all (f : value -> outcome value) (entries : list value) :
  Forall (fun entry => exists m, f entry = Return m) entries ->
  length (flat_map (fun entry => kept (f entry)) entries) = length entries.
Proof.
  induction 1 as [|entry entries [m Hm] _ IH]; simpl; [reflexivity|].
  rewrite Hm. simpl. by rewrite IH.
Qed.

(** ** Text Normalizer *)

(** C4. On every string the normalizer ([clean_text], then [split]) is the
    composition, in this order, of: dropping every character that is
    neither a word character nor whitespace, lowercasing, dropping every
    digit (a run of digits leaves nothing behind), and splitting on
    whitespace. Nothing is filtered by length or by stop word: the words
    of the result, put end to end, are all the non-whitespace characters
    of the cleaned text. *)
Theorem normalizer_steps (s : str) :
  clean_text (VStr s) =
    Return (filter (fun c => is_digit c = false)
              (map char_lower (filter (fun c => is_word c || is_space c = true) s)))
  ∧ normalize (VStr s) = Return (normalize_spec s)
  ∧ concat (normalize_spec s) =
      filter (fun c => is_space c = false)
        (filter (fun c => is_digit c = false)
           (map char_lower (filter (fun c => is_word c || is_space c = true) s))).
Proof.
  split; [apply clean_text_str|]. split; [apply normalize_str|].
  unfold normalize_spec. apply split_concat.
Qed.

(** On U+0000..U+00FF the open normalizer is the one of the program. *)
Lemma clean_text_as_text (s : str) :
  clean_text (VStr s) = Return (Text.clean_text is_word is_space is_digit lower s).
Proof. reflexivity. Qed.

Lemma split_as_text (s : str) : split s = Text.split is_space s.
Proof. reflexivity. Qed.

Lemma text_sub_each_empty {char} (cls : char -> bool) (s : list char) :
  Text.sub_each cls [] s = filter (fun c => cls c = false) s.
Proof.
  induction s as [|c s IH]; simpl; [reflexivity|].
  destruct (cls c) eqn:E; simpl.
  - rewrite filter_cons_False by congruence. exact IH.
  - rewrite filter_cons_True by assumption. by rewrite IH.
Qed.

Lemma text_sub_runs_empty {char} (cls : char -> bool) (b : bool) (s : list char) :
  Text.sub_runs cls [] b s = filter (fun c => cls c = false) s.
Proof.
  revert b. induction s as [|c s IH]; intros b; simpl; [reflexivity|].
  destruct (cls c) eqn:E.
  - rewrite filter_cons_False by congruence. destruct b; simpl; apply IH.
  - rewrite filter_cons_True by assumption. by rewrite IH.
Qed.

Lemma text_clean_text_fixed {char} (is_word is_space is_digit : char -> bool)
    (lower : list char -> list char) (s : list char) :
  Text.already_normalized is_word is_space is_digit lower s ->
  Text.clean_text is_word is_space is_digit lower s = s.
Proof.
  intros (Hlow & Hkeep & Hdig). unfold Text.clean_text.
  rewrite text_sub_runs_empty, text_sub_each_empty.
  rewrite (filter_all (fun c => negb (is_word c || is_space c) = false) s).
  - rewrite Hlow. by apply filter_all.
  - eapply Forall_impl; [exact Hkeep|]. intros c Hc. by rewrite Hc.
Qed.

(** C9, as the program has it. A message that is already normalized
    ([lower] leaves it unchanged, every character is a word character or
    whitespace, none is a digit) is left unchanged by [clean_text], and the
    normalizer yields its own whitespace split. This holds whatever the
    alphabet and whatever [lower] does to other strings, and so in the
    model of the program on U+0000..U+00FF. *)
Theorem cleaning_fixes_normalized_text :
  (forall (char : Type) (is_word is_space is_digit : char -> bool)
          (lower : list char -> list char) (s : list char),
     Text.already_normalized is_word is_space is_digit lower s ->
     Text.clean_text is_word is_space is_digit lower s = s
     ∧ Text.normalize is_word is_space is_digit lower s = Text.split is_space s)
  ∧ (forall s : str,
       already_normalized s ->
       clean_text (VStr s) = Return s ∧ normalize (VStr s) = Return (split s)).
Proof.
  split.
  - intros char is_word is_space is_digit lower s Hs.
    pose proof (text_clean_text_fixed _ _ _ _ s Hs) as Hc.
    split; [exact Hc|]. unfold Text.normalize. by rewrite Hc.
  - intros s Hs. pose proof (clean_text_fixed s Hs) as Hc.
    split; [exact Hc|]. unfold normalize. by rewrite Hc.
Qed.

Lemma cleaning_fixes_normalized_text_witness :
  Wide.clean_text (map Wide.Latin1 (lit "disk full")) = map Wide.Latin1 (lit "disk full")
  ∧ Wide.normalize (map Wide.Latin1 (lit "disk full"))
    = Text.split Wide.is_space (map Wide.Latin1 (lit "disk full")).
Proof.
  refine (proj1 cleaning_fixes_normalized_text Wide.codepoint
            Wide.is_word Wide.is_space Wide.is_digit Wide.lower
            (map Wide.Latin1 (lit "disk full")) _).
  split; [reflexivity|]. split; repeat constructor.
Defined.

(** C9 does not hold as stated: the cleaned text of "U+0130" is "i" followed
    by U+0307, which is not a word character, so cleaning it again removes
    a character and the word sequence changes. *)
Lemma cleaning_twice_differs :
  Wide.clean_text [Wide.U0130] = [Wide.Latin1 "i"%char; Wide.U0307]
  ∧ Wide.clean_text [Wide.Latin1 "i"%char; Wide.U0307] = [Wide.Latin1 "i"%char]
  ∧ Wide.normalize [Wide.U0130] = [[Wide.Latin1 "i"%char; Wide.U0307]]
  ∧ Wide.normalize [Wide.Latin1 "i"%char; Wide.U0307] = [[Wide.Latin1 "i"%char]]
  ∧ Wide.normalize (Wide.clean_text [Wide.U0130]) <> Wide.normalize [Wide.U0130].
Proof. repeat split; try reflexivity. vm_compute. discriminate. Qed.

(** ** Frequency Analyzer *)

(** C2. Word mode. On every batch of strings and every stop-word set,
    [analyze_word_frequency] returns the table that counts, over the whole
    batch, the occurrences of the normalized words that are longer than 2
    and are not stop words (every occurrence counts, also within one
    message). On ["Error: disk FULL 123"; "error disk full"] with no stop
    word the table is error: 2, disk: 2, full: 2. *)
Theorem word_frequency_counts :
  (forall (STOPWORDS : gset str) (msgs : list str) (o : option (gset str)),
     exists t : gmap str Z,
       analyze_word_frequency STOPWORDS (map VStr msgs) o = Return t
       ∧ counts_of t (flat_map (tokens (stop_set STOPWORDS o)) msgs))
  ∧ (forall STOPWORDS : gset str,
       analyze_word_frequency STOPWORDS
         [VStr (lit "Error: disk FULL 123"); VStr (lit "error disk full")] (Some ∅)
       = Return {[ lit "error" := 2; lit "disk" := 2; lit "full" := 2 ]}).
Proof.
  split.
  - intros STOPWORDS msgs o. eexists. split; [apply analyze_word_frequency_str|].
    apply Counter_update_counts.
  - intros STOPWORDS.
    rewrite (analyze_word_frequency_str STOPWORDS
               [lit "Error: disk FULL 123"; lit "error disk full"] (Some ∅)).
    vm_compute. reflexivity.
Qed.

Lemma tokens_words (sw : gset str) (m : str) : Forall is_word_of_text (tokens sw m).
Proof.
  apply Forall_forall. intros w [Hw _]%tokens_elem.
  revert w Hw. apply Forall_forall, split_words.
Qed.

Lemma phrases_spec_length (sw : gset str) (n : Z) (m : str) :
  1 <= n ->
  Z.of_nat (length (phrases_spec sw n m))
  = Z.max 0 (Z.of_nat (length (tokens sw m)) - n + 1).
Proof. intros Hn. unfold phrases_spec. rewrite length_map, windows_length. lia. Qed.

(** C1. Phrase mode, for [n >= 1]. On every batch of strings and every
    stop-word set, [analyze_phrase_frequency] returns the table that
    counts, over the whole batch, the phrases of the messages. The phrases
    of a message with filtered word sequence [W] of length [L] (normalized
    words longer than 2 that are not stop words) are the [max 0 (L-n+1)]
    windows [W[k..k+n-1]], in order, each joined with single spaces; a
    message with [L < n] has no phrase and no error is raised. Every
    window has [n] elements, all of them filtered words, and splitting a
    phrase at its spaces gives back its window. *)
Theorem phrase_frequency_windows
    (STOPWORDS : gset str) (msgs : list str) (n : Z) (o : option (gset str)) :
  1 <= n ->
  (exists t : gmap str Z,
     analyze_phrase_frequency STOPWORDS (map VStr msgs) n o = Return t
     ∧ counts_of t (flat_map (phrases_spec (stop_set STOPWORDS o) n) msgs))
  ∧ (forall m : str,
       phrases_of (tokens (stop_set STOPWORDS o) m) n = phrases_spec (stop_set STOPWORDS o) n m
       ∧ Z.of_nat (length (phrases_spec (stop_set STOPWORDS o) n m))
         = Z.max 0 (Z.of_nat (length (tokens (stop_set STOPWORDS o) m)) - n + 1)
       ∧ (Z.of_nat (length (tokens (stop_set STOPWORDS o) m)) < n ->
          phrases_spec (stop_set STOPWORDS o) n m = [])
       ∧ (forall k : nat,
            (k < length (phrases_spec (stop_set STOPWORDS o) n m))%nat ->
            phrases_spec (stop_set STOPWORDS o) n m !! k
            = Some (join (lit " ")
                      (take (Z.to_nat n) (drop k (tokens (stop_set STOPWORDS o) m)))))
       ∧ (forall (win : list str) (w : str),
            win ∈ windows (Z.to_nat n) (tokens (stop_set STOPWORDS o) m) ->
            w ∈ win ->
            Z.of_nat (length win) = n
            ∧ split (join (lit " ") win) = win
            ∧ (2 < length w)%nat ∧ w ∉ stop_set STOPWORDS o)).
Proof.
  intros Hn. set (sw := stop_set STOPWORDS o). split.
  - eexists. split; [apply analyze_phrase_frequency_str|]. fold sw.
    replace (flat_map (phrases_spec sw n) msgs)
      with (flat_map (fun m => phrases_of (tokens sw m) n) msgs).
    + apply Counter_update_counts.
    + apply flat_map_ext. intros m. by apply phrases_of_spec.
  - intros m. split; [by apply phrases_of_spec|].
    split; [by apply phrases_spec_length|]. split; [|split].
    + intros HL. unfold phrases_spec. rewrite windows_short; [reflexivity|lia].
    + intros k Hk. unfold phrases_spec in *.
      rewrite length_map, windows_length in Hk.
      by rewrite list_lookup_fmap, windows_lookup.
    + intros win w Hwin Hw.
      pose proof (windows_elem _ _ _ Hwin) as (k & Hk & Hwk & Hlen).
      split; [lia|]. split.
      * apply split_join, Forall_forall. intros w' Hw'.
        pose proof (windows_elem_in _ _ _ _ Hwin Hw') as Hin.
        exact (proj1 (Forall_forall _ _) (tokens_words sw m) w' Hin).
      * pose proof (windows_elem_in _ _ _ _ Hwin Hw) as Hin.
        apply tokens_elem in Hin. tauto.
Qed.

Lemma phrase_frequency_windows_witness :
  exists t : gmap str Z,
    analyze_phrase_frequency ∅
      (map VStr [lit "Error: disk FULL 123"; lit "error disk full"]) 2 (Some ∅)
    = Return t
    ∧ counts_of t
        (flat_map (phrases_spec (stop_set ∅ (Some ∅)) 2)
           [lit "Error: disk FULL 123"; lit "error disk full"]).
Proof.
  refine (proj1 (phrase_frequency_windows ∅
                   [lit "Error: disk FULL 123"; lit "error disk full"] 2 (Some ∅) _)).
  lia.
Defined.

(** The specification's example for phrase mode with [n = 2]. *)
Example phrase_frequency_example (STOPWORDS : gset str) :
  analyze_phrase_frequency STOPWORDS
    [VStr (lit "Error: disk FULL 123"); VStr (lit "error disk full")] 2 (Some ∅)
  = Return {[ lit "error disk" := 2; lit "disk full" := 2 ]}.
Proof. vm_compute. reflexivity. Qed.

(** Words that were not adjacent in the message are adjacent in a phrase
    when the words between them are filtered out. *)
Example phrase_bridges_filtered_words (STOPWORDS : gset str) :
  analyze_phrase_frequency STOPWORDS [VStr (lit "disk is 99 full")] 2 (Some ∅)
  = Return {[ lit "disk full" := 1 ]}.
Proof. vm_compute. reflexivity. Qed.

(** C7. With [n = 1] phrase mode is word mode: on every batch (whatever
    its elements) and every stop-word set both calls have the same
    outcome. *)
Theorem phrase_mode_one_is_word_mode
    (STOPWORDS : gset str) (log_messages : list value) (o : option (gset str)) :
  analyze_phrase_frequency STOPWORDS log_messages 1 o
  = analyze_word_frequency STOPWORDS log_messages o.
Proof.
  unfold analyze_phrase_frequency, analyze_word_frequency.
  apply for_in_ext. intros message counts.
  destruct (clean_text message) as [cleaned|e]; simpl; [|reflexivity].
  by rewrite phrases_of_one.
Qed.

(** C8. Aggregation does not depend on the order or grouping of the
    messages: when a batch is split in any way into two sublists (the batch
    is a permutation of the two put together), the key-by-key sum of the
    two tables is the table of the whole batch, in word mode and in phrase
    mode. *)
Theorem aggregation_order_independent
    (STOPWORDS : gset str) (msgs part1 part2 : list str) (n : Z) (o : option (gset str)) :
  msgs ≡ₚ part1 ++ part2 ->
  (exists t1 t2 : gmap str Z,
     analyze_word_frequency STOPWORDS (map VStr part1) o = Return t1
     ∧ analyze_word_frequency STOPWORDS (map VStr part2) o = Return t2
     ∧ analyze_word_frequency STOPWORDS (map VStr msgs) o = Return (counter_sum t1 t2))
  ∧ (exists t1 t2 : gmap str Z,
       analyze_phrase_frequency STOPWORDS (map VStr part1) n o = Return t1
       ∧ analyze_phrase_frequency STOPWORDS (map VStr part2) n o = Return t2
       ∧ analyze_phrase_frequency STOPWORDS (map VStr msgs) n o = Return (counter_sum t1 t2)).
Proof.
  intros Hp. split.
  - do 2 eexists. split; [apply analyze_word_frequency_str|].
    split; [apply analyze_word_frequency_str|].
    rewrite analyze_word_frequency_str. f_equal. by apply Counter_update_sum.
  - do 2 eexists. split; [apply analyze_phrase_frequency_str|].
    split; [apply analyze_phrase_frequency_str|].
    rewrite analyze_phrase_frequency_str. f_equal.
    by apply (Counter_update_sum
                (fun m => phrases_of (tokens (stop_set STOPWORDS o) m) n)).
Qed.

Lemma aggregation_order_independent_witness :
  exists t1 t2 : gmap str Z,
    analyze_word_frequency ∅ (map VStr [lit "disk full"; lit "error disk"]) (Some ∅) = Return t1
    ∧ analyze_word_frequency ∅ (map VStr [lit "Error: disk FULL 123"]) (Some ∅) = Return t2
    ∧ analyze_word_frequency ∅
        (map VStr [lit "error disk"; lit "Error: disk FULL 123"; lit "disk full"]) (Some ∅)
      = Return (counter_sum t1 t2).
Proof.
  exact (proj1 (aggregation_order_independent ∅
                  [lit "error disk"; lit "Error: disk FULL 123"; lit "disk full"]
                  [lit "disk full"; lit "error disk"] [lit "Error: disk FULL 123"]
                  2 (Some ∅) (perm_rotate3 _ _ _))).
Defined.

(** C10. Every count of a returned table is at least 1, and the keys are
    exactly the filtered words (in phrase mode with [n >= 1]: the phrases)
    that occur in some message of the batch. *)
Theorem counts_are_positive
    (STOPWORDS : gset str) (msgs : list str) (n : Z) (o : option (gset str)) :
  1 <= n ->
  (exists t : gmap str Z,
     analyze_word_frequency STOPWORDS (map VStr msgs) o = Return t
     ∧ (forall (k : str) (c : Z), t !! k = Some c -> 1 <= c)
     ∧ (forall k : str,
          k ∈ dom t <-> exists m, m ∈ msgs ∧ k ∈ tokens (stop_set STOPWORDS o) m))
  ∧ (exists t : gmap str Z,
       analyze_phrase_frequency STOPWORDS (map VStr msgs) n o = Return t
       ∧ (forall (p : str) (c : Z), t !! p = Some c -> 1 <= c)
       ∧ (forall p : str,
            p ∈ dom t <-> exists m, m ∈ msgs ∧ p ∈ phrases_spec (stop_set STOPWORDS o) n m)).
Proof.
  intros Hn. split.
  - eexists. split; [apply analyze_word_frequency_str|].
    pose proof (Counter_update_counts
                  (flat_map (tokens (stop_set STOPWORDS o)) msgs)) as Hc.
    split.
    + intros k c Hk. by destruct (counts_of_positive _ _ _ _ Hc Hk).
    + intros k. rewrite (counts_of_dom _ _ k Hc). apply elem_of_flat_map.
  - eexists. split; [apply analyze_phrase_frequency_str|].
    pose proof (Counter_update_counts
                  (flat_map (fun m => phrases_of (tokens (stop_set STOPWORDS o) m) n)
                     msgs)) as Hc.
    split.
    + intros p c Hp. by destruct (counts_of_positive _ _ _ _ Hc Hp).
    + intros p. rewrite (counts_of_dom _ _ p Hc), elem_of_flat_map.
      split; intros (m & Hm & Hp); exists m; split; try assumption.
      * by rewrite <- phrases_of_spec.
      * by rewrite phrases_of_spec.
Qed.

Lemma counts_are_positive_witness :
  exists t : gmap str Z,
    analyze_word_frequency ∅
      (map VStr [lit "Error: disk FULL 123"; lit "error disk full"]) (Some ∅) = Return t
    ∧ (forall (k : str) (c : Z), t !! k = Some c -> 1 <= c)
    ∧ (forall k : str,
         k ∈ dom t <->
         exists m, m ∈ [lit "Error: disk FULL 123"; lit "error disk full"]
                   ∧ k ∈ tokens (stop_set ∅ (Some ∅)) m).
Proof.
  refine (proj1 (counts_are_positive ∅
                   [lit "Error: disk FULL 123"; lit "error disk full"] 2 (Some ∅) _)).
  lia.
Defined.

(** C3, as the program has it. [analyze_phrase_frequency] does not check
    [n]: with [n <= 0] on a batch of strings no error is raised, no message
    yields a phrase, and the call returns the empty table. *)
Theorem nonpositive_ngram_size_gives_empty_table
    (STOPWORDS : gset str) (msgs : list str) (n : Z) (o : option (gset str)) :
  n <= 0 ->
  analyze_phrase_frequency STOPWORDS (map VStr msgs) n o = Return ∅.
Proof.
  intros Hn. rewrite analyze_phrase_frequency_str. f_equal.
  replace (flat_map (fun m => phrases_of (tokens (stop_set STOPWORDS o) m) n) msgs)
    with (@nil str); [reflexivity|].
  induction msgs as [|m msgs IH]; simpl; [reflexivity|].
  by rewrite phrases_of_nonpositive.
Qed.

Lemma nonpositive_ngram_size_witness :
  analyze_phrase_frequency ∅ (map VStr [lit "disk full"; lit "error disk"]) (-1) None
  = Return ∅.
Proof.
  refine (nonpositive_ngram_size_gives_empty_table ∅
            [lit "disk full"; lit "error disk"] (-1) None _).
  lia.
Defined.

(** C3 does not hold as stated: with [ngram_size = 0] the call on a
    non-empty batch returns (the empty table) and raises nothing. *)
Lemma ngram_size_zero_returns :
  analyze_phrase_frequency ∅
    [VStr (lit "Error: disk FULL 123"); VStr (lit "error disk full")] 0 (Some ∅)
  = Return ∅
  ∧ (forall e : exn,
       analyze_phrase_frequency ∅
         [VStr (lit "Error: disk FULL 123"); VStr (lit "error disk full")] 0 (Some ∅)
       <> Raise e).
Proof.
  assert (H : analyze_phrase_frequency ∅
                [VStr (lit "Error: disk FULL 123"); VStr (lit "error disk full")] 0 (Some ∅)
              = Return ∅) by (vm_compute; reflexivity).
  split; [exact H|]. intros e. rewrite H. discriminate.
Qed.

(** The messages are cleaned whatever [n] is: a message that is not a
    string is a [TypeError] also when [n <= 0]. *)
Example messages_are_processed_for_any_n (STOPWORDS : gset str) (n : Z) :
  analyze_phrase_frequency STOPWORDS [VOther 0] n None = Raise TypeError.
Proof. reflexivity. Qed.

(** ** Payload Extractor *)

(** C5. The extraction loop never raises: on every batch, whatever the
    conversion [str] does, [get_logs] returns a list. The list has at most
    as many messages as there are entries; it holds, in order, the
    messages of the entries whose extraction succeeded, and nothing in the
    place of the others. When exactly one entry fails, the list is one
    shorter than the batch. *)
Theorem extraction_never_aborts (py_str : value -> outcome str) (entries : list value) :
  exists log_messages : list value,
    get_logs py_str entries = Return log_messages
    ∧ (length log_messages <= length entries)%nat
    ∧ log_messages = flat_map (fun entry => kept (extract_spec py_str entry)) entries
    ∧ (forall (before after : list value) (bad : value) (e : exn),
         entries = before ++ bad :: after ->
         extract_spec py_str bad = Raise e ->
         Forall (fun entry => exists m, extract_spec py_str entry = Return m)
           (before ++ after) ->
         length log_messages = (length entries - 1)%nat
         ∧ get_logs py_str (before ++ after) = Return log_messages).
Proof.
  eexists. split; [apply get_logs_kept|]. split; [apply flat_map_kept_length|].
  split; [reflexivity|]. intros before after bad e -> Hbad Hgood.
  rewrite get_logs_kept, !flat_map_app. cbn [flat_map]. rewrite Hbad. cbn [kept app].
  split; [|reflexivity].
  rewrite <- flat_map_app, flat_map_kept_all by assumption.
  rewrite !length_app. simpl. lia.
Qed.

Lemma extraction_never_aborts_witness :
  exists log_messages : list value,
    get_logs sample_str sample_entries = Return log_messages
    ∧ length log_messages = 4%nat.
Proof.
  destruct (extraction_never_aborts sample_str sample_entries)
    as (log_messages & Hget & _ & _ & Hone).
  exists log_messages. split; [exact Hget|].
  refine (proj1 (Hone [VStr (lit "disk full")] _ (VOther 0)
                   (OtherException "ValueError") eq_refl eq_refl _)).
  repeat constructor; eexists; reflexivity.
Defined.

(** C6. The message of an entry, by payload: a string is taken as it is; a
    mapping with a "message" field gives the value of that field; a
    mapping without one gives its string conversion; any other value
    gives its string conversion. On a batch, [get_logs] applies this to
    every entry in order (an entry whose conversion raises gives
    nothing). *)
Theorem payload_case_split (py_str : value -> outcome str) :
  (forall s : str, get_logs py_str [VStr s] = Return [VStr s])
  ∧ (forall (d : gmap str value) (field : value),
       d !! lit "message" = Some field ->
       get_logs py_str [VDict d] = Return [field])
  ∧ (forall (d : gmap str value) (s : str),
       d !! lit "message" = None -> py_str (VDict d) = Return s ->
       get_logs py_str [VDict d] = Return [VStr s])
  ∧ (forall (o : N) (s : str),
       py_str (VOther o) = Return s ->
       get_logs py_str [VOther o] = Return [VStr s])
  ∧ (forall entries : list value,
       get_logs py_str entries
       = Return (flat_map (fun entry => kept (extract_spec py_str entry)) entries)).
Proof.
  split; [|split; [|split; [|split]]].
  - intros s. rewrite get_logs_kept. reflexivity.
  - intros d field Hd. rewrite get_logs_kept. cbn [flat_map extract_spec].
    rewrite Hd. reflexivity.
  - intros d s Hd Hs. rewrite get_logs_kept. cbn [flat_map extract_spec].
    rewrite Hd, Hs. reflexivity.
  - intros o s Hs. rewrite get_logs_kept. cbn [flat_map extract_spec].
    rewrite Hs. reflexivity.
  - apply get_logs_kept.
Qed.

Lemma payload_case_split_witness :
  get_logs sample_str [VDict {[ lit "message" := VStr (lit "error disk") ]}]
  = Return [VStr (lit "error disk")]
  ∧ get_logs sample_str [VDict {[ lit "status" := VStr (lit "ok") ]}]
    = Return [VStr (lit "{'status': 'ok'}")]
  ∧ get_logs sample_str [VOther 7] = Return [VStr (lit "None")].
Proof.
  destruct (payload_case_split sample_str) as (_ & Hfield & Hdict & Hother & _).
  split; [|split].
  - exact (Hfield {[ lit "message" := VStr (lit "error disk") ]}
             (VStr (lit "error disk")) eq_refl).
  - exact (Hdict {[ lit "status" := VStr (lit "ok") ]}
             (lit "{'status': 'ok'}") eq_refl eq_refl).
  - exact (Hother 7%N (lit "None") eq_refl).
Defined.

(** The batch above, extracted. *)
Example get_logs_sample :
  get_logs sample_str sample_entries
  = Return [ VStr (lit "disk full"); VStr (lit "error disk");
             VStr (lit "{'status': 'ok'}"); VStr (lit "None") ].
Proof. reflexivity. Qed.

(** * Further properties of the program *)

(** ** Messages with the same cleaned text *)

Lemma normalize_spec_cleaned (a b : str) :
  clean_text (VStr a) = clean_text (VStr b) -> normalize_spec a = normalize_spec b.
Proof. rewrite !clean_text_str. intros [= H]. unfold normalize_spec. by rewrite H. Qed.

Lemma flat_map_Forall2 {A B} (f : A -> list B) (xs ys : list A) :
  Forall2 (fun a b => f a = f b) xs ys -> flat_map f xs = flat_map f ys.
Proof. induction 1 as [|a b xs ys Hab _ IH]; simpl; congruence. Qed.

(** The analysis sees a message only through its normalized words. *)
Lemma analysis_of_words (STOPWORDS : gset str) (msgs1 msgs2 : list str) (n : Z)
    (o : option (gset str)) :
  Forall2 (fun a b => normalize_spec a = normalize_spec b) msgs1 msgs2 ->
  analyze_word_frequency STOPWORDS (map VStr msgs1) o
  = analyze_word_frequency STOPWORDS (map VStr msgs2) o
  ∧ analyze_phrase_frequency STOPWORDS (map VStr msgs1) n o
    = analyze_phrase_frequency STOPWORDS (map VStr msgs2) n o.
Proof.
  intros Hn. rewrite !analyze_word_frequency_str, !analyze_phrase_frequency_str.
  split; do 2 f_equal; apply flat_map_Forall2;
    (eapply Forall2_impl; [exact Hn|]); intros a b Hab; unfold tokens; by rewrite Hab.
Qed.

Lemma analysis_of_cleaned (STOPWORDS : gset str) (msgs1 msgs2 : list str) (n : Z)
    (o : option (gset str)) :
  Forall2 (fun a b => clean_text (VStr a) = clean_text (VStr b)) msgs1 msgs2 ->
  analyze_word_frequency STOPWORDS (map VStr msgs1) o
  = analyze_word_frequency STOPWORDS (map VStr msgs2) o
  ∧ analyze_phrase_frequency STOPWORDS (map VStr msgs1) n o
    = analyze_phrase_frequency STOPWORDS (map VStr msgs2) n o.
Proof.
  intros H. apply analysis_of_words.
  eapply Forall2_impl; [exact H|]. apply normalize_spec_cleaned.
Qed.

Lemma Forall2_refl_cleaned (msgs : list str) :
  Forall2 (fun a b => clean_text (VStr a) = clean_text (VStr b)) msgs msgs.
Proof. induction msgs; by constructor. Qed.

Lemma clean_text_punctuation (s1 s2 : str) (c : ascii) :
  is_punctuation c -> clean_text (VStr (s1 ++ c :: s2)) = clean_text (VStr (s1 ++ s2)).
Proof.
  unfold is_punctuation. intros Hc. rewrite !clean_text_str. do 3 f_equal.
  rewrite !filter_app. f_equal. rewrite filter_cons_False; [reflexivity|congruence].
Qed.

(** X2. Punctuation is deleted, it does not separate words: taking a
    character that is neither a word character nor whitespace out of a
    message, wherever it stands, leaves the outcome of the analysis as it
    is (so "disk-full" counts as "diskfull"). *)
Theorem punctuation_does_not_separate
    (STOPWORDS : gset str) (before after : list str) (s1 s2 : str) (c : ascii)
    (n : Z) (o : option (gset str)) :
  is_punctuation c ->
  analyze_word_frequency STOPWORDS (map VStr (before ++ (s1 ++ c :: s2) :: after)) o
  = analyze_word_frequency STOPWORDS (map VStr (before ++ (s1 ++ s2) :: after)) o
  ∧ analyze_phrase_frequency STOPWORDS (map VStr (before ++ (s1 ++ c :: s2) :: after)) n o
    = analyze_phrase_frequency STOPWORDS (map VStr (before ++ (s1 ++ s2) :: after)) n o.
Proof.
  intros Hc. apply analysis_of_cleaned, Forall2_app; [apply Forall2_refl_cleaned|].
  constructor; [by apply clean_text_punctuation|apply Forall2_refl_cleaned].
Qed.

Lemma punctuation_does_not_separate_witness :
  analyze_word_frequency ∅ (map VStr ([] ++ (lit "disk" ++ "-"%char :: lit "full") :: [])) None
  = analyze_word_frequency ∅ (map VStr ([] ++ (lit "disk" ++ lit "full") :: [])) None.
Proof.
  refine (proj1 (punctuation_does_not_separate ∅ [] [] (lit "disk") (lit "full")
                   "-"%char 2 None _)).
  reflexivity.
Defined.

(** ** The shape of the keys *)

Lemma normalize_spec_words (m w : str) :
  w ∈ normalize_spec m -> Forall (fun c => is_space c = false ∧ is_digit c = false) w.
Proof.
  intros Hw. apply Forall_forall. intros c Hc.
  pose proof (proj1 (Forall_forall _ _) (split_words _) w Hw) as [_ Hsp].
  split; [exact (proj1 (Forall_forall _ _) Hsp c Hc)|].
  pose proof (split_chars _ _ _ Hw Hc) as Hin.
  by apply list_elem_of_filter in Hin as [Hd _].
Qed.

Lemma tokens_key_shaped (sw : gset str) (m w : str) :
  w ∈ tokens sw m -> key_shaped w ∧ w ∉ sw.
Proof.
  intros (Hw & Hlen & Hsw)%tokens_elem. repeat split; [assumption| |assumption].
  by eapply normalize_spec_words.
Qed.

(** X3. Every key of a word table is longer than 2 characters, is not in
    the stop-word set in force, and has no whitespace and no digit in it. *)
Theorem word_keys_are_filtered_words
    (STOPWORDS : gset str) (msgs : list str) (o : option (gset str))
    (t : gmap str Z) (k : str) (c : Z) :
  analyze_word_frequency STOPWORDS (map VStr msgs) o = Return t ->
  t !! k = Some c ->
  key_shaped k ∧ k ∉ stop_set STOPWORDS o.
Proof.
  rewrite analyze_word_frequency_str. intros [= <-] Hk.
  destruct (counts_of_positive _ _ _ _ (Counter_update_counts _) Hk) as [_ Hin].
  apply elem_of_flat_map in Hin as (m & _ & Hin). by eapply tokens_key_shaped.
Qed.

Lemma word_keys_are_filtered_words_witness :
  key_shaped (lit "disk") ∧ lit "disk" ∉ stop_set ∅ (Some {[ lit "full" ]}).
Proof.
  refine (word_keys_are_filtered_words ∅ [lit "Disk FULL 42"; lit "disk: ok"]
            (Some {[ lit "full" ]}) {[ lit "disk" := 2 ]} (lit "disk") 2 _ _).
  - vm_compute. reflexivity.
  - reflexivity.
Defined.

Lemma filter_ext_in {A} (P Q : A -> Prop) `{forall x, Decision (P x)} `{forall x, Decision (Q x)}
    (l : list A) :
  (forall x, x ∈ l -> P x <-> Q x) -> filter P l = filter Q l.
Proof.
  induction l as [|x l IH]; intros HPQ; [reflexivity|].
  assert (Hx : P x <-> Q x) by (apply HPQ; constructor).
  assert (Hl : filter P l = filter Q l) by (apply IH; intros; apply HPQ; by constructor).
  destruct (decide (P x)) as [HP|HP].
  - rewrite (filter_cons_True P), (filter_cons_True Q) by tauto. by rewrite Hl.
  - rewrite (filter_cons_False P), (filter_cons_False Q) by tauto. exact Hl.
Qed.

Lemma tokens_agree (sw1 sw2 : gset str) (m : str) :
  (forall w, key_shaped w -> w ∈ sw1 <-> w ∈ sw2) -> tokens sw1 m = tokens sw2 m.
Proof.
  intros H. unfold tokens. apply filter_ext_in. intros w Hw.
  pose proof (normalize_spec_words m w Hw) as Hc.
  split; intros [Hlen Hsw]; (split; [assumption|]); intros Hin; apply Hsw;
    by apply (H w (conj Hlen Hc)).
Qed.

(** X4. A stop word that cannot be a key never filters anything: two
    stop-word sets that have the same members among the strings longer
    than 2 without whitespace and without digit give the same outcome, in
    word mode and in phrase mode. So stop words of one or two characters,
    or with a space or a digit in them, are without effect. *)
Theorem stop_words_of_other_shape_are_inert
    (STOPWORDS : gset str) (msgs : list str) (n : Z) (sw1 sw2 : gset str) :
  (forall w, key_shaped w -> w ∈ sw1 <-> w ∈ sw2) ->
  analyze_word_frequency STOPWORDS (map VStr msgs) (Some sw1)
  = analyze_word_frequency STOPWORDS (map VStr msgs) (Some sw2)
  ∧ analyze_phrase_frequency STOPWORDS (map VStr msgs) n (Some sw1)
    = analyze_phrase_frequency STOPWORDS (map VStr msgs) n (Some sw2).
Proof.
  intros H. rewrite !analyze_word_frequency_str, !analyze_phrase_frequency_str.
  cbn [stop_set]. split; do 2 f_equal; apply flat_map_ext; intros m;
    by rewrite (tokens_agree sw1 sw2 m H).
Qed.

Lemma stop_words_of_other_shape_witness :
  analyze_phrase_frequency ∅ (map VStr [lit "disk is full"]) 2
    (Some {[ lit "is"; lit "disk 1" ]})
  = analyze_phrase_frequency ∅ (map VStr [lit "disk is full"]) 2 (Some ∅).
Proof.
  refine (proj2 (stop_words_of_other_shape_are_inert ∅ [lit "disk is full"] 2
                   {[ lit "is"; lit "disk 1" ]} ∅ _)).
  intros w [Hlen Hw]. split; [|by intros ?%not_elem_of_empty].
  intros [->%elem_of_singleton| ->%elem_of_singleton]%elem_of_union.
  - simpl in Hlen. lia.
  - exfalso. do 4 (inversion Hw as [|? ? _ Hw']; subst; clear Hw; rename Hw' into Hw).
    inversion Hw as [|? ? [Hsp _] _]; subst. discriminate Hsp.
Defined.

(** ** More stop words *)

Lemma tokens_more_stop_words (s1 s2 : gset str) (m : str) :
  s1 ⊆ s2 -> tokens s2 m = filter (fun w => w ∉ s2) (tokens s1 m).
Proof.
  intros Hs. unfold tokens. rewrite list_filter_filter. apply list_filter_iff.
  intros w. split; [|tauto]. intros [Hlen Hw]. repeat split; try assumption.
  intros Hin. apply Hw. by apply Hs.
Qed.

Lemma filter_flat_map {A B} (P : B -> Prop) `{forall x, Decision (P x)} (f : A -> list B)
    (xs : list A) :
  filter P (flat_map f xs) = flat_map (fun x => filter P (f x)) xs.
Proof.
  induction xs as [|x xs IH]; [reflexivity|]. simpl. by rewrite filter_app, IH.
Qed.

Lemma occurrences_filter (P : str -> Prop) `{forall x, Decision (P x)} (k : str) (xs : list str) :
  P k -> occurrences k (filter P xs) = occurrences k xs.
Proof.
  intros Hk. induction xs as [|x xs IH]; [reflexivity|].
  destruct (decide (x = k)) as [->|Hne].
  - rewrite filter_cons_True by assumption. rewrite !occurrences_cons_eq. by rewrite IH.
  - rewrite (occurrences_cons_ne k x xs) by assumption.
    destruct (decide (P x)).
    + rewrite filter_cons_True by assumption. by rewrite occurrences_cons_ne.
    + by rewrite filter_cons_False.
Qed.

Lemma Counter_update_filter (P : str -> Prop) `{forall x, Decision (P x)} (xs : list str) (k : str) :
  Counter_update ∅ (filter P xs) !! k
  = if decide (P k) then Counter_update ∅ xs !! k else None.
Proof.
  rewrite !Counter_update_counts.
  destruct (decide (P k)) as [Hk|Hk].
  - rewrite occurrences_filter by assumption.
    destruct (decide (k ∈ xs)) as [Hin|Hin].
    + rewrite decide_True; [reflexivity|]. by apply list_elem_of_filter.
    + rewrite decide_False; [reflexivity|]. by intros [_ ?]%list_elem_of_filter.
  - rewrite decide_False; [reflexivity|]. by intros [? _]%list_elem_of_filter.
Qed.

(** X5. In word mode a larger stop-word set only removes keys: the table
    for the larger set is the table for the smaller one without the keys
    that are in the larger set, every other key with the same count. *)
Theorem more_stop_words_only_remove_keys
    (STOPWORDS : gset str) (msgs : list str) (o1 o2 : option (gset str)) :
  stop_set STOPWORDS o1 ⊆ stop_set STOPWORDS o2 ->
  exists t1 t2 : gmap str Z,
    analyze_word_frequency STOPWORDS (map VStr msgs) o1 = Return t1
    ∧ analyze_word_frequency STOPWORDS (map VStr msgs) o2 = Return t2
    ∧ forall k : str,
        t2 !! k = if decide (k ∈ stop_set STOPWORDS o2) then None else t1 !! k.
Proof.
  intros Hs. do 2 eexists. split; [apply analyze_word_frequency_str|].
  split; [apply analyze_word_frequency_str|]. intros k.
  rewrite (flat_map_ext _ _ (fun m => tokens_more_stop_words _ _ m Hs)).
  rewrite <- filter_flat_map, Counter_update_filter.
  destruct (decide (k ∈ stop_set STOPWORDS o2)).
  - by rewrite decide_False by tauto.
  - by rewrite decide_True.
Qed.

Lemma more_stop_words_witness :
  exists t1 t2 : gmap str Z,
    analyze_word_frequency ∅ (map VStr [lit "disk full"; lit "disk error"]) (Some ∅) = Return t1
    ∧ analyze_word_frequency ∅ (map VStr [lit "disk full"; lit "disk error"])
        (Some {[ lit "disk" ]}) = Return t2
    ∧ forall k : str,
        t2 !! k = if decide (k ∈ stop_set ∅ (Some {[ lit "disk" ]})) then None else t1 !! k.
Proof.
  refine (more_stop_words_only_remove_keys ∅ [lit "disk full"; lit "disk error"]
            (Some ∅) (Some {[ lit "disk" ]}) _).
  apply empty_subseteq.
Defined.

(** In phrase mode a stop word can add a key: the words around it become
    neighbours. *)
Example stop_word_adds_phrase (STOPWORDS : gset str) :
  analyze_phrase_frequency STOPWORDS [VStr (lit "disk very full")] 2 (Some ∅)
  = Return {[ lit "disk very" := 1; lit "very full" := 1 ]}
  ∧ analyze_phrase_frequency STOPWORDS [VStr (lit "disk very full")] 2
      (Some {[ lit "very" ]})
    = Return {[ lit "disk full" := 1 ]}.
Proof. split; vm_compute; reflexivity. Qed.

(** ** The sum of the counts *)

Lemma total_insert_fresh (t : gmap str Z) (k : str) (v : Z) :
  t !! k = None -> total (<[k := v]> t) = v + total t.
Proof.
  intros Hk. unfold total. apply map_fold_insert_L; [|assumption].
  intros. lia.
Qed.

Lemma total_increment (t : gmap str Z) (k : str) :
  total (<[k := default 0 (t !! k) + 1]> t) = total t + 1.
Proof.
  destruct (t !! k) as [v|] eqn:Hk; simpl.
  - rewrite <- (insert_delete_eq t k (v + 1)).
    rewrite total_insert_fresh by apply lookup_delete_eq.
    rewrite <- (insert_delete_id t k v Hk) at 2.
    rewrite total_insert_fresh by apply lookup_delete_eq. lia.
  - rewrite total_insert_fresh by assumption. lia.
Qed.

Lemma total_Counter_update (t : gmap str Z) (xs : list str) :
  total (Counter_update t xs) = total t + Z.of_nat (length xs).
Proof.
  revert t. induction xs as [|x xs IH]; intros t.
  - simpl. lia.
  - change (Counter_update t (x :: xs))
      with (Counter_update (<[x := default 0 (t !! x) + 1]> t) xs).
    rewrite IH, total_increment. cbn [length]. lia.
Qed.

Lemma length_flat_map {A B} (f : A -> list B) (xs : list A) :
  Z.of_nat (length (flat_map f xs))
  = foldr (fun x acc => Z.of_nat (length (f x)) + acc) 0 xs.
Proof.
  induction xs as [|x xs IH]; [reflexivity|]. simpl. rewrite length_app. lia.
Qed.

(** X6. Nothing is counted twice and nothing is lost: the counts of a word
    table add up to the number of filtered words of the batch, and for
    [n >= 1] the counts of a phrase table add up to the sum, over the
    messages, of [max 0 (L - n + 1)], [L] being the number of filtered
    words of the message. *)
Theorem counts_add_up
    (STOPWORDS : gset str) (msgs : list str) (n : Z) (o : option (gset str)) :
  1 <= n ->
  (exists t : gmap str Z,
     analyze_word_frequency STOPWORDS (map VStr msgs) o = Return t
     ∧ total t
       = foldr (fun m acc => Z.of_nat (length (tokens (stop_set STOPWORDS o) m)) + acc) 0 msgs)
  ∧ (exists t : gmap str Z,
       analyze_phrase_frequency STOPWORDS (map VStr msgs) n o = Return t
       ∧ total t
         = foldr (fun m acc =>
                    Z.max 0 (Z.of_nat (length (tokens (stop_set STOPWORDS o) m)) - n + 1) + acc)
             0 msgs).
Proof.
  intros Hn. split.
  - eexists. split; [apply analyze_word_frequency_str|].
    rewrite total_Counter_update, length_flat_map. reflexivity.
  - eexists. split; [apply analyze_phrase_frequency_str|].
    rewrite total_Counter_update, length_flat_map.
    change (total ∅) with 0. rewrite Z.add_0_l.
    induction msgs as [|m msgs IH]; [reflexivity|]. cbn [foldr]. rewrite IH. f_equal.
    rewrite phrases_of_spec by assumption. by apply phrases_spec_length.
Qed.

Lemma counts_add_up_witness :
  exists t : gmap str Z,
    analyze_phrase_frequency ∅ (map VStr [lit "error disk full"; lit "disk"]) 2 None = Return t
    ∧ total t
      = foldr (fun m acc =>
                 Z.max 0 (Z.of_nat (length (tokens (stop_set ∅ None) m)) - 2 + 1) + acc)
          0 [lit "error disk full"; lit "disk"].
Proof.
  refine (proj2 (counts_add_up ∅ [lit "error disk full"; lit "disk"] 2 None _)).
  lia.
Defined.

(** ** Messages that are not strings *)

Lemma clean_text_is_str (v : value) :
  is_str v -> exists cleaned, clean_text v = Return cleaned.
Proof. destruct v as [s| |]; try done. intros _. eexists. apply clean_text_str. Qed.

Lemma clean_text_not_is_str (v : value) :
  ¬ is_str v -> clean_text v = Raise TypeError.
Proof. destruct v as [s| |]; [|reflexivity..]. intros H. by destruct H. Qed.

Lemma is_str_dec (v : value) : is_str v ∨ ¬ is_str v.
Proof. destruct v; simpl; tauto. Qed.

Lemma for_in_first_raise {A S} (ok : A -> Prop) (body : A -> S -> outcome S) (e : exn)
    (xs : list A) (st : S) :
  (forall x, ok x ∨ ¬ ok x) ->
  (forall x st, ok x -> exists st', body x st = Return st') ->
  (forall x st, ¬ ok x -> body x st = Raise e) ->
  (Forall ok xs -> exists st', for_in xs body st = Return st')
  ∧ (Exists (fun x => ¬ ok x) xs -> for_in xs body st = Raise e).
Proof.
  intros Hdec Hok Hbad. revert st. induction xs as [|x xs IH]; intros st.
  - split; [by eexists|]. by intros ?%Exists_nil.
  - simpl. destruct (Hdec x) as [Hx|Hx].
    + destruct (Hok x st Hx) as [st' ->]. simpl. destruct (IH st') as [IH1 IH2]. split.
      * intros Hall. apply IH1. by inversion Hall.
      * intros Hex. apply IH2. by apply Exists_cons in Hex as [?|?].
    + rewrite (Hbad x st Hx). simpl. split; [|reflexivity].
      intros Hall. by inversion Hall.
Qed.

(** A batch gives a table exactly when all its messages are strings. *)
Lemma analysis_outcome_by_types
    (STOPWORDS : gset str) (log_messages : list value) (n : Z) (o : option (gset str)) :
  (Forall is_str log_messages ->
     (exists t, analyze_word_frequency STOPWORDS log_messages o = Return t)
     ∧ (exists t, analyze_phrase_frequency STOPWORDS log_messages n o = Return t))
  ∧ (Exists (fun v => ¬ is_str v) log_messages ->
       analyze_word_frequency STOPWORDS log_messages o = Raise TypeError
       ∧ analyze_phrase_frequency STOPWORDS log_messages n o = Raise TypeError).
Proof.
  unfold analyze_word_frequency, analyze_phrase_frequency.
  match goal with
  | |- context [for_in _ ?b ∅ = Raise _ ∧ for_in _ ?b' ∅ = Raise _] =>
      pose proof (for_in_first_raise is_str b TypeError log_messages ∅ is_str_dec) as Hw;
      pose proof (for_in_first_raise is_str b' TypeError log_messages ∅ is_str_dec) as Hp
  end.
  destruct Hw as [Hw1 Hw2].
  { intros v t [cleaned ->]%clean_text_is_str. by eexists. }
  { intros v t ->%clean_text_not_is_str. reflexivity. }
  destruct Hp as [Hp1 Hp2].
  { intros v t [cleaned ->]%clean_text_is_str. by eexists. }
  { intros v t ->%clean_text_not_is_str. reflexivity. }
  split; intros H; split; auto.
Qed.

(** X7. One message that is not a string stops the whole analysis: a batch
    gives a table when all its messages are strings, and a [TypeError]
    (no table at all) as soon as one is not, whatever the mode, [n] and
    the stop words. *)
Theorem non_string_message_is_type_error
    (STOPWORDS : gset str) (log_messages : list value) (n : Z) (o : option (gset str)) :
  (Forall is_str log_messages ->
     (exists t, analyze_word_frequency STOPWORDS log_messages o = Return t)
     ∧ (exists t, analyze_phrase_frequency STOPWORDS log_messages n o = Return t))
  ∧ (Exists (fun v => ¬ is_str v) log_messages ->
       analyze_word_frequency STOPWORDS log_messages o = Raise TypeError
       ∧ analyze_phrase_frequency STOPWORDS log_messages n o = Raise TypeError).
Proof. apply analysis_outcome_by_types. Qed.

Lemma non_string_message_witness :
  analyze_word_frequency ∅ [VStr (lit "disk full"); VOther 3; VStr (lit "error")] None
  = Raise TypeError.
Proof.
  refine (proj1 (proj2 (non_string_message_is_type_error ∅
            [VStr (lit "disk full"); VOther 3; VStr (lit "error")] 2 None) _)).
  apply Exists_cons_tl, Exists_cons_hd. simpl. tauto.
Defined.

(** ** From the entries to the table *)

Lemma kept_is_str (py_str : value -> outcome str) (entry : value) :
  ¬ has_non_string_message entry -> Forall is_str (kept (extract_spec py_str entry)).
Proof.
  destruct entry as [s|d|o]; cbn [extract_spec has_non_string_message].
  - intros _. by repeat constructor.
  - destruct (d !! lit "message") as [[s| |]|]; intros H; try (by destruct H).
    + by repeat constructor.
    + destruct (py_str (VDict d)); simpl; by repeat constructor.
  - intros _. destruct (py_str (VOther o)); simpl; by repeat constructor.
Qed.

Lemma kept_not_is_str (py_str : value -> outcome str) (entry : value) :
  has_non_string_message entry ->
  Exists (fun v => ¬ is_str v) (kept (extract_spec py_str entry)).
Proof.
  destruct entry as [s|d|o]; cbn [extract_spec has_non_string_message]; try done.
  destruct (d !! lit "message") as [[s| |]|]; try done; intros _;
    apply Exists_cons_hd; exact (fun H => H).
Qed.

Lemma extracted_types (py_str : value -> outcome str) (entries : list value) :
  (Forall (fun entry => ¬ has_non_string_message entry) entries ->
     Forall is_str (flat_map (fun entry => kept (extract_spec py_str entry)) entries))
  ∧ (Exists has_non_string_message entries ->
       Exists (fun v => ¬ is_str v)
         (flat_map (fun entry => kept (extract_spec py_str entry)) entries)).
Proof.
  induction entries as [|entry entries [IH1 IH2]]; simpl.
  - split; [constructor|by intros ?%Exists_nil].
  - split.
    + intros H. inversion H; subst. apply Forall_app. split; [by apply kept_is_str|auto].
    + intros H. apply Exists_app. apply Exists_cons in H as [H|H];
        [left; by apply kept_not_is_str|right; auto].
Qed.

(** X8. Extraction followed by analysis fails on one kind of entry only:
    a mapping whose "message" field is not a string. With such an entry in
    the batch the analysis of the extracted messages is a [TypeError];
    without one it returns a table, whatever the conversion [str] does. *)
Theorem pipeline_fails_on_non_string_message_field
    (STOPWORDS : gset str) (py_str : value -> outcome str) (entries : list value)
    (n : Z) (o : option (gset str)) :
  (Exists has_non_string_message entries ->
     (log_messages ← get_logs py_str entries;
      analyze_word_frequency STOPWORDS log_messages o) = Raise TypeError
     ∧ (log_messages ← get_logs py_str entries;
        analyze_phrase_frequency STOPWORDS log_messages n o) = Raise TypeError)
  ∧ (Forall (fun entry => ¬ has_non_string_message entry) entries ->
       (exists t, (log_messages ← get_logs py_str entries;
                   analyze_word_frequency STOPWORDS log_messages o) = Return t)
       ∧ (exists t, (log_messages ← get_logs py_str entries;
                     analyze_phrase_frequency STOPWORDS log_messages n o) = Return t)).
Proof.
  rewrite get_logs_kept. cbn [mbind outcome_bind].
  destruct (extracted_types py_str entries) as [Hgood Hbad].
  destruct (analysis_outcome_by_types STOPWORDS
              (flat_map (fun entry => kept (extract_spec py_str entry)) entries) n o)
    as [Hret Hraise].
  split; intros H; auto.
Qed.

Lemma pipeline_fails_witness :
  (log_messages ← get_logs sample_str
                    [VStr (lit "disk full"); VDict {[ lit "message" := VOther 1 ]}];
   analyze_word_frequency ∅ log_messages None) = Raise TypeError.
Proof.
  refine (proj1 (proj1 (pipeline_fails_on_non_string_message_field ∅ sample_str
            [VStr (lit "disk full"); VDict {[ lit "message" := VOther 1 ]}] 2 None) _)).
  apply Exists_cons_tl, Exists_cons_hd. exact I.
Defined.

(** X9. Entries are extracted one by one: the messages of two batches put
    together are the messages of the first followed by those of the
    second; and a batch of string payloads comes out as it is, whatever
    the conversion [str] does. *)
Theorem entries_are_extracted_one_by_one (py_str : value -> outcome str) :
  (forall batch1 batch2 : list value,
     exists msgs1 msgs2 : list value,
       get_logs py_str batch1 = Return msgs1
       ∧ get_logs py_str batch2 = Return msgs2
       ∧ get_logs py_str (batch1 ++ batch2) = Return (msgs1 ++ msgs2))
  ∧ (forall payloads : list str,
       get_logs py_str (map VStr payloads) = Return (map VStr payloads)).
Proof.
  split.
  - intros batch1 batch2. do 2 eexists. split; [apply get_logs_kept|].
    split; [apply get_logs_kept|]. by rewrite get_logs_kept, flat_map_app.
  - intros payloads. rewrite get_logs_kept. f_equal.
    induction payloads as [|s payloads IH]; [reflexivity|]. simpl. by rewrite IH.
Qed.

(** ** [main] *)

Lemma flat_map_nothing {A B} (xs : list A) : flat_map (fun _ : A => @nil B) xs = [].
Proof. by induction xs. Qed.

Section MainProperties.

Variable STOPWORDS : gset str.
Variable py_str : value -> outcome str.
Variable setup_environment : string -> option string -> outcome unit.
Variable list_entries : string -> string -> Z -> option string -> outcome (list value).
Variable generate_wordcloud : gmap str Z -> string -> outcome unit.

Variables (project_id log_name output_file : string) (num_entries : Z).
Variables (credentials_path filter_string : option string).

Local Abbreviation run analyze_phrases ngram_size :=
  (main STOPWORDS py_str setup_environment list_entries generate_wordcloud
     project_id log_name num_entries output_file credentials_path filter_string
     analyze_phrases ngram_size).

Lemma main_setup_raises (analyze_phrases : bool) (ngram_size : Z) (e : exn) :
  setup_environment project_id credentials_path = Raise e ->
  run analyze_phrases ngram_size = ([Print_error e], Return tt).
Proof. intros Hs. unfold main. by rewrite Hs. Qed.

Lemma main_retrieval_raises (analyze_phrases : bool) (ngram_size : Z) (u : unit) (e : exn) :
  setup_environment project_id credentials_path = Return u ->
  list_entries project_id log_name num_entries filter_string = Raise e ->
  run analyze_phrases ngram_size = ([Print_error e], Return tt).
Proof. intros Hs He. unfold main. by rewrite Hs, He. Qed.

Lemma main_no_message (analyze_phrases : bool) (ngram_size : Z) (u : unit)
    (entries : list value) :
  setup_environment project_id credentials_path = Return u ->
  list_entries project_id log_name num_entries filter_string = Return entries ->
  get_logs py_str entries = Return [] ->
  run analyze_phrases ngram_size = ([Print_no_entries], Return tt).
Proof.
  intros Hs He Hg. unfold main. rewrite Hs, He.
  cbn [call io_bind mbind outcome_bind app]. by rewrite Hg.
Qed.

Lemma main_after_extraction (analyze_phrases : bool) (ngram_size : Z)
    (entries : list value) (u : unit) (message : value) (log_messages : list value) :
  setup_environment project_id credentials_path = Return u ->
  list_entries project_id log_name num_entries filter_string = Return entries ->
  get_logs py_str entries = Return (message :: log_messages) ->
  run analyze_phrases ngram_size
  = match main_analysis STOPWORDS analyze_phrases ngram_size (message :: log_messages) with
    | Raise e => ([Print_error e], Return tt)
    | Return counts =>
        match generate_wordcloud counts output_file with
        | Return _ => ([Call_generate_wordcloud counts output_file], Return tt)
        | Raise e => ([Call_generate_wordcloud counts output_file; Print_error e], Return tt)
        end
    end.
Proof.
  intros Hs He Hg. unfold main_analysis, main. rewrite Hs, He.
  cbn [call io_bind mbind outcome_bind app]. rewrite Hg.
  destruct analyze_phrases.
  - destruct (analyze_phrase_frequency _ _ _ _) as [counts|e]; [|reflexivity].
    cbn. by destruct (generate_wordcloud counts output_file) as [[]|e].
  - destruct (analyze_word_frequency _ _ _) as [counts|e]; [|reflexivity].
    cbn. by destruct (generate_wordcloud counts output_file) as [[]|e].
Qed.

(** X11. When the set-up and the retrieval succeed and the extracted
    messages are strings, at least one, [main] calls [generate_wordcloud]
    exactly once, for [output_file], with the table of the mode asked for
    under the default stop words: in word mode the counts of the filtered
    words, in phrase mode with [ngram_size >= 1] the counts of the phrases,
    and in phrase mode with [ngram_size <= 0] the empty table. *)
Theorem main_renders_the_table (analyze_phrases : bool) (ngram_size : Z)
    (u : unit) (entries : list value) (m : str) (msgs : list str) :
  setup_environment project_id credentials_path = Return u ->
  list_entries project_id log_name num_entries filter_string = Return entries ->
  get_logs py_str entries = Return (map VStr (m :: msgs)) ->
  exists counts : gmap str Z,
    render_calls (fst (run analyze_phrases ngram_size)) = [(counts, output_file)]
    ∧ (analyze_phrases = false ->
       counts_of counts (flat_map (tokens STOPWORDS) (m :: msgs)))
    ∧ (analyze_phrases = true -> 1 <= ngram_size ->
       counts_of counts (flat_map (phrases_spec STOPWORDS ngram_size) (m :: msgs)))
    ∧ (analyze_phrases = true -> ngram_size <= 0 -> counts = ∅).
Proof.
  intros Hs He Hg.
  rewrite (main_after_extraction _ _ entries u (VStr m) (map VStr msgs) Hs He Hg).
  change (VStr m :: map VStr msgs) with (map VStr (m :: msgs)).
  unfold main_analysis. destruct analyze_phrases.
  - rewrite analyze_phrase_frequency_str. cbn [stop_set]. eexists. split.
    { by destruct (generate_wordcloud _ output_file). }
    split; [discriminate|]. split; intros _ Hn.
    + rewrite (flat_map_ext _ (phrases_spec STOPWORDS ngram_size)
                 (fun m0 => phrases_of_spec STOPWORDS ngram_size m0 Hn)).
      apply Counter_update_counts.
    + rewrite (flat_map_ext _ (fun _ => [])
                 (fun m0 => phrases_of_nonpositive (tokens STOPWORDS m0) ngram_size Hn)).
      by rewrite flat_map_nothing.
  - rewrite analyze_word_frequency_str. cbn [stop_set]. eexists. split.
    { by destruct (generate_wordcloud _ output_file). }
    split; [intros _; apply Counter_update_counts|]. split; discriminate.
Qed.

(** X12. No word cloud is made when there is nothing to count or when a
    message cannot be cleaned: if the extraction gives no message, [main]
    says that no entry was found and stops; if an entry is a mapping whose
    "message" field is not a string, [main] reports the [TypeError] of the
    analysis. In both cases [generate_wordcloud] is not called. *)
Theorem main_without_word_cloud (analyze_phrases : bool) (ngram_size : Z)
    (u : unit) (entries : list value) :
  setup_environment project_id credentials_path = Return u ->
  list_entries project_id log_name num_entries filter_string = Return entries ->
  (get_logs py_str entries = Return [] ->
     run analyze_phrases ngram_size = ([Print_no_entries], Return tt))
  ∧ (Exists has_non_string_message entries ->
       run analyze_phrases ngram_size = ([Print_error TypeError], Return tt)).
Proof.
  intros Hs He. split; [by apply (main_no_message _ _ u entries)|]. intros Hbad.
  destruct (extracted_types py_str entries) as [_ Hex]. specialize (Hex Hbad).
  destruct (flat_map (fun entry => kept (extract_spec py_str entry)) entries)
    as [|message log_messages] eqn:Hg; [by apply Exists_nil in Hex|].
  rewrite (main_after_extraction _ _ entries u message log_messages Hs He)
    by (by rewrite get_logs_kept, Hg).
  destruct (analysis_outcome_by_types STOPWORDS (message :: log_messages) ngram_size None)
    as [_ Hraise].
  destruct (Hraise Hex) as [Hw Hp]. unfold main_analysis.
  destruct analyze_phrases; by rewrite ?Hw, ?Hp.
Qed.

End MainProperties.

Lemma main_renders_the_table_witness :
  exists counts : gmap str Z,
    render_calls
      (fst (main ∅ sample_str sample_setup (sample_list_entries sample_entries) sample_render
              "project" "global" 1000 "wordcloud.png" None None true 0))
    = [(counts, "wordcloud.png"%string)]
    ∧ counts = ∅.
Proof.
  destruct (main_renders_the_table ∅ sample_str sample_setup
              (sample_list_entries sample_entries) sample_render
              "project" "global" "wordcloud.png" 1000 None None true 0 tt sample_entries
              (lit "disk full")
              [lit "error disk"; lit "{'status': 'ok'}"; lit "None"]
              eq_refl eq_refl eq_refl) as (counts & Hcall & _ & _ & Hempty).
  exists counts. split; [exact Hcall|]. apply Hempty; [reflexivity|lia].
Defined.

Lemma main_without_word_cloud_witness :
  main ∅ sample_str sample_setup
    (sample_list_entries [VStr (lit "disk full"); VDict {[ lit "message" := VOther 1 ]}])
    sample_render "project" "global" 1000 "wordcloud.png" None None false 2
  = ([Print_error TypeError], Return tt).
Proof.
  refine (proj2 (main_without_word_cloud ∅ sample_str sample_setup
                   (sample_list_entries
                      [VStr (lit "disk full"); VDict {[ lit "message" := VOther 1 ]}])
                   sample_render "project" "global" "wordcloud.png" 1000 None None false 2 tt
                   [VStr (lit "disk full"); VDict {[ lit "message" := VOther 1 ]}]
                   eq_refl eq_refl) _).
  apply Exists_cons_tl, Exists_cons_hd. exact I.
Defined.

(** ** Phrases and their words *)

Lemma join_inj (l1 l2 : list str) :
  Forall is_word_of_text l1 -> Forall is_word_of_text l2 ->
  join (lit " ") l1 = join (lit " ") l2 -> l1 = l2.
Proof.
  intros H1 H2 H. rewrite <- (split_join l1 H1), <- (split_join l2 H2). by rewrite H.
Qed.

Lemma occurrences_drop_S (w : str) (j : nat) (W : list str) :
  occurrences w (drop j W)
  = ((if decide (W !! j = Some w) then 1 else 0) + occurrences w (drop (S j) W))%nat.
Proof.
  revert j. induction W as [|x W IH]; intros j.
  - rewrite !drop_nil. by destruct j.
  - destruct j as [|j].
    + cbn [drop lookup list_lookup]. destruct (decide (x = w)) as [->|Hne].
      * rewrite occurrences_cons_eq, decide_True by reflexivity. reflexivity.
      * rewrite occurrences_cons_ne by assumption.
        rewrite decide_False by congruence. reflexivity.
    + apply IH.
Qed.

Lemma occurrences_drop_le (w : str) (j : nat) (W : list str) :
  (occurrences w (drop j W) <= occurrences w W)%nat.
Proof.
  induction j as [|j IH]; [by rewrite drop_0|].
  pose proof (occurrences_drop_S w j W). lia.
Qed.

Lemma window_occurrences_le (n : nat) (win : list str) (w : str) (j : nat) (W : list str) :
  (1 <= n)%nat -> win !! j = Some w ->
  Forall is_word_of_text W -> Forall is_word_of_text win ->
  (occurrences (join (lit " ") win) (map (join (lit " ")) (windows n W))
   <= occurrences w (drop j W))%nat.
Proof.
  intros Hn Hj HW Hwin. induction W as [|x W IH].
  - rewrite windows_short by (simpl; lia). simpl. lia.
  - inversion HW as [|? ? Hx HW']; subst. specialize (IH HW').
    pose proof (occurrences_drop_S w j (x :: W)) as HS.
    change (drop (S j) (x :: W)) with (drop j W) in HS.
    destruct (decide (n <= S (length W))%nat) as [Hle|Hgt].
    2: { rewrite windows_short by (simpl; lia). simpl. lia. }
    rewrite windows_cons by assumption. cbn [map].
    destruct (decide (join (lit " ") (take n (x :: W)) = join (lit " ") win)) as [Heq|Hne].
    + rewrite Heq, occurrences_cons_eq.
      apply join_inj in Heq; [|by apply Forall_take|assumption].
      rewrite <- Heq in Hj. apply lookup_take_Some in Hj as [Hj _].
      rewrite decide_True in HS by assumption. lia.
    + rewrite occurrences_cons_ne by assumption. lia.
Qed.

Lemma occurrences_flat_map_le {A} (f g : A -> list str) (p w : str) (xs : list A) :
  (forall x, (occurrences p (f x) <= occurrences w (g x))%nat) ->
  (occurrences p (flat_map f xs) <= occurrences w (flat_map g xs))%nat.
Proof.
  intros H. induction xs as [|x xs IH]; simpl; [lia|].
  rewrite !occurrences_app. specialize (H x). lia.
Qed.

(** X13. For [n >= 1], every key of the phrase table is made of [n] keys
    of the word table of the same batch (same stop words), joined by
    single spaces, and it is not counted more often than any of them. *)
Theorem phrase_counts_bounded_by_word_counts
    (STOPWORDS : gset str) (msgs : list str) (n : Z) (o : option (gset str))
    (tw tp : gmap str Z) (p : str) (c : Z) :
  1 <= n ->
  analyze_word_frequency STOPWORDS (map VStr msgs) o = Return tw ->
  analyze_phrase_frequency STOPWORDS (map VStr msgs) n o = Return tp ->
  tp !! p = Some c ->
  exists win : list str,
    p = join (lit " ") win
    ∧ Z.of_nat (length win) = n
    ∧ forall w : str, w ∈ win -> exists cw : Z, tw !! w = Some cw ∧ c <= cw.
Proof.
  intros Hn. rewrite analyze_word_frequency_str, analyze_phrase_frequency_str.
  intros [= <-] [= <-]. set (sw := stop_set STOPWORDS o).
  rewrite (flat_map_ext _ (phrases_spec sw n) (fun m => phrases_of_spec sw n m Hn)).
  rewrite Counter_update_counts.
  destruct (decide (p ∈ flat_map (phrases_spec sw n) msgs)) as [Hp|]; [|discriminate].
  intros [= <-]. apply elem_of_flat_map in Hp as (m0 & Hm0 & Hp).
  unfold phrases_spec in Hp. apply list_elem_of_fmap in Hp as (win & -> & Hwin).
  pose proof (windows_elem _ _ _ Hwin) as (k & _ & _ & Hlen).
  assert (Hwords : Forall is_word_of_text win).
  { apply Forall_forall. intros w Hw.
    exact (proj1 (Forall_forall _ _) (tokens_words sw m0) w
             (windows_elem_in _ _ _ _ Hwin Hw)). }
  exists win. split; [reflexivity|]. split; [lia|]. intros w Hw.
  assert (Hin : w ∈ flat_map (tokens sw) msgs).
  { apply elem_of_flat_map. exists m0. split; [assumption|].
    by eapply windows_elem_in. }
  rewrite Counter_update_counts, decide_True by assumption.
  eexists. split; [reflexivity|]. apply inj_le.
  apply list_elem_of_lookup in Hw as [j Hj].
  apply occurrences_flat_map_le. intros m. unfold phrases_spec.
  etransitivity; [|apply (occurrences_drop_le w j)].
  apply window_occurrences_le; try assumption; [lia|apply tokens_words].
Qed.

Lemma phrase_counts_bounded_witness :
  exists win : list str,
    lit "disk full" = join (lit " ") win
    ∧ Z.of_nat (length win) = 2
    ∧ forall w : str, w ∈ win ->
        exists cw : Z,
          ({[ lit "disk" := 3; lit "full" := 2; lit "error" := 1 ]} : gmap str Z) !! w = Some cw
          ∧ 2 <= cw.
Proof.
  refine (phrase_counts_bounded_by_word_counts ∅
            [lit "disk full"; lit "error disk full"; lit "disk"] 2 (Some ∅)
            {[ lit "disk" := 3; lit "full" := 2; lit "error" := 1 ]}
            {[ lit "disk full" := 2; lit "error disk" := 1 ]}
            (lit "disk full") 2 _ _ _ _).
  - lia.
  - vm_compute. reflexivity.
  - vm_compute. reflexivity.
  - reflexivity.
Defined.

(** ** Whitespace *)

Lemma space_is_not_digit c : is_space c = true -> is_digit c = false.
Proof. destruct c as [[] [] [] [] [] [] [] []]; vm_compute; congruence. Qed.

Lemma split_go_space_swap (cur a b : str) (c1 c2 : ascii) :
  is_space c1 = true -> is_space c2 = true ->
  split_go cur (a ++ c1 :: b) = split_go cur (a ++ c2 :: b).
Proof.
  intros H1 H2. revert cur. induction a as [|x a IH]; intros cur; simpl.
  - by rewrite H1, H2.
  - destruct (is_space x); [|apply IH]. destruct cur; by rewrite IH.
Qed.

Lemma split_go_space_twice (cur a b : str) (c1 c2 : ascii) :
  is_space c1 = true -> is_space c2 = true ->
  split_go cur (a ++ c1 :: c2 :: b) = split_go cur (a ++ c1 :: b).
Proof.
  intros H1 H2. revert cur. induction a as [|x a IH]; intros cur; simpl.
  - rewrite H1, H2. by destruct cur.
  - destruct (is_space x); [|apply IH]. destruct cur; by rewrite IH.
Qed.

Lemma cleaned_around_space (s1 s2 : str) (c : ascii) :
  is_space c = true ->
  filter (fun c => is_digit c = false)
    (map char_lower (filter (fun c => is_word c || is_space c = true) (s1 ++ c :: s2)))
  = filter (fun c => is_digit c = false)
      (map char_lower (filter (fun c => is_word c || is_space c = true) s1))
    ++ char_lower c
       :: filter (fun c => is_digit c = false)
            (map char_lower (filter (fun c => is_word c || is_space c = true) s2)).
Proof.
  intros Hc. rewrite filter_app, map_app, filter_app. f_equal.
  rewrite (filter_cons_True _ c) by (by rewrite Hc, orb_true_r). cbn [map].
  rewrite filter_cons_True; [reflexivity|].
  apply space_is_not_digit. by rewrite is_space_lower.
Qed.

Lemma cleaned_cons_space (s : str) (c : ascii) :
  is_space c = true ->
  filter (fun c => is_digit c = false)
    (map char_lower (filter (fun c => is_word c || is_space c = true) (c :: s)))
  = char_lower c
    :: filter (fun c => is_digit c = false)
         (map char_lower (filter (fun c => is_word c || is_space c = true) s)).
Proof. exact (cleaned_around_space [] s c). Qed.

Lemma normalize_spec_space_swap (s1 s2 : str) (c1 c2 : ascii) :
  is_space c1 = true -> is_space c2 = true ->
  normalize_spec (s1 ++ c2 :: s2) = normalize_spec (s1 ++ c1 :: s2).
Proof.
  intros H1 H2. unfold normalize_spec, split. rewrite !cleaned_around_space by assumption.
  apply split_go_space_swap; by rewrite is_space_lower.
Qed.

Lemma normalize_spec_space_twice (s1 s2 : str) (c1 c2 : ascii) :
  is_space c1 = true -> is_space c2 = true ->
  normalize_spec (s1 ++ c1 :: c2 :: s2) = normalize_spec (s1 ++ c1 :: s2).
Proof.
  intros H1 H2. unfold normalize_spec, split.
  rewrite (cleaned_around_space s1 (c2 :: s2) c1 H1).
  rewrite (cleaned_cons_space s2 c2 H2).
  rewrite (cleaned_around_space s1 s2 c1 H1).
  apply split_go_space_twice; by rewrite is_space_lower.
Qed.

Lemma Forall2_refl_words (msgs : list str) :
  Forall2 (fun a b => normalize_spec a = normalize_spec b) msgs msgs.
Proof. induction msgs; by constructor. Qed.

(** X14. All whitespace is the same separator, and more of it changes
    nothing: in a message, replacing a whitespace character (space, tab,
    line break, ...) by another one, or putting a second one next to it,
    leaves the outcome of the analysis as it is. In particular the phrases
    of a message run across its line breaks. *)
Theorem whitespace_is_one_separator
    (STOPWORDS : gset str) (before after : list str) (s1 s2 : str) (c1 c2 : ascii)
    (n : Z) (o : option (gset str)) :
  is_space c1 = true -> is_space c2 = true ->
  (analyze_word_frequency STOPWORDS (map VStr (before ++ (s1 ++ c2 :: s2) :: after)) o
   = analyze_word_frequency STOPWORDS (map VStr (before ++ (s1 ++ c1 :: s2) :: after)) o
   ∧ analyze_phrase_frequency STOPWORDS (map VStr (before ++ (s1 ++ c2 :: s2) :: after)) n o
     = analyze_phrase_frequency STOPWORDS (map VStr (before ++ (s1 ++ c1 :: s2) :: after)) n o)
  ∧ (analyze_word_frequency STOPWORDS
       (map VStr (before ++ (s1 ++ c1 :: c2 :: s2) :: after)) o
     = analyze_word_frequency STOPWORDS (map VStr (before ++ (s1 ++ c1 :: s2) :: after)) o
     ∧ analyze_phrase_frequency STOPWORDS
         (map VStr (before ++ (s1 ++ c1 :: c2 :: s2) :: after)) n o
       = analyze_phrase_frequency STOPWORDS
           (map VStr (before ++ (s1 ++ c1 :: s2) :: after)) n o).
Proof.
  intros H1 H2. split; apply analysis_of_words, Forall2_app;
    try apply Forall2_refl_words; (constructor; [|apply Forall2_refl_words]).
  - by apply normalize_spec_space_swap.
  - by apply normalize_spec_space_twice.
Qed.

Lemma whitespace_is_one_separator_witness :
  analyze_phrase_frequency ∅
    (map VStr ([] ++ (lit "error disk" ++ "010"%char :: lit "full") :: [])) 2 None
  = analyze_phrase_frequency ∅
      (map VStr ([] ++ (lit "error disk" ++ " "%char :: lit "full") :: [])) 2 None.
Proof.
  exact (proj2 (proj1 (whitespace_is_one_separator ∅ [] [] (lit "error disk") (lit "full")
                         " "%char "010"%char 2 None eq_refl eq_refl))).
Defined.
